(** * deb/ar.go: the Debian [ar(1)] archive reader

    A shallow embedding of [package deb] (file [deb/ar.go]): the header
    decoder [parseArEntry], the magic check [checkAr], the constructor
    [LoadAr] and the cursor step [Ar.Next], followed by the properties of
    the archive cursor that the specification states.

    Conventions.
    - A Go [string] and a Go [[]byte] are both a [list byte]; the conversion
      [string(b)] copies the bytes and is the identity here.
    - [int], [int64] and [rune] values are integers of [Z]; the only [int64]
      arithmetic that can leave the range is the offset bookkeeping of
      [Next], which is written with the wrap-around [wrap64].  [int] is
      64 bits wide ([strconv.IntSize = 64]).
    - A Go function returning [(T, error)] with [nil] on one side returns a
      [result T]; [strconv.Atoi], which returns a value next to its error,
      returns a pair.
    - [*Ar] is mutated by [Next]: the method takes the cursor and returns
      the cursor after the call.
    - The four Go library functions the file calls ([strings.TrimSpace],
      [strings.TrimSuffix], [strconv.Atoi], [io.NewSectionReader]) and the
      [io.ReaderAt] interface are modelled after the Go standard library,
      each in a module of its package's name. *)

From Stdlib.Strings Require Import String Byte.
From Stdlib Require Import ZArith Zquot List Bool Lia.
From Stdlib Require Import Permutation Sorted.
Import ListNotations.

Local Open Scope Z_scope.

(** ** Bytes, strings and errors *)

Definition bytes := list byte.

(** The bytes of a string literal. *)
Definition str (s : string) : bytes := list_byte_of_string s.

(** The numeric value of a byte. *)
Definition byteZ (b : byte) : Z := Z.of_N (Byte.to_N b).

(** [s[i]] for an index that the caller has checked to be in range. *)
Definition at_ (s : bytes) (i : nat) : byte := nth i s x00.

(** [s[lo:hi]]. *)
Definition slice (s : bytes) (lo hi : nat) : bytes :=
  firstn (hi - lo) (skipn lo s).

Definition bytes_eqb (a b : bytes) : bool :=
  if list_eq_dec Byte.byte_eq_dec a b then true else false.

Inductive strconvErr : Type :=
| ErrSyntax
| ErrRange.

(** The [error] values that flow through the package. *)
Inductive error : Type :=
| io_EOF                                               (* io.EOF *)
| NumError (Func : string) (Num : bytes) (Err : strconvErr)
                                                       (* *strconv.NumError *)
| Errorf (msg : string)                                (* fmt.Errorf(msg) *)
| ErrorfParse (name : string) (err : error)
    (* fmt.Errorf("failed to parse entry %s: %w", name, err) *)
| SourceError (code : nat).       (* any other error of a byte source *)

Inductive result (A : Type) : Type :=
| OK (a : A)
| Err (e : error).
Arguments OK {A} a.
Arguments Err {A} e.

(** ** Package [unicode/utf8] *)

Module utf8.

Definition RuneError : Z := 0xFFFD.
Definition RuneSelf : Z := 0x80.
Definition UTFMax : nat := 4.

Definition maskx : Z := 0x3F.
Definition mask2 : Z := 0x1F.
Definition mask3 : Z := 0x0F.
Definition mask4 : Z := 0x07.
Definition locb : Z := 0x80.
Definition hicb : Z := 0xBF.

Definition xx : Z := 0xF1.
Definition as_ : Z := 0xF0.
Definition s1 : Z := 0x02.
Definition s2 : Z := 0x13.
Definition s3 : Z := 0x03.
Definition s4 : Z := 0x23.
Definition s5 : Z := 0x34.
Definition s6 : Z := 0x04.
Definition s7 : Z := 0x44.

(** The table [first], by ranges of the first byte. *)
Definition first (b : Z) : Z :=
  if b <? 0x80 then as_
  else if b <? 0xC2 then xx
  else if b <? 0xE0 then s1
  else if b =? 0xE0 then s2
  else if b <? 0xED then s3
  else if b =? 0xED then s4
  else if b <? 0xF0 then s3
  else if b =? 0xF0 then s5
  else if b <? 0xF4 then s6
  else if b =? 0xF4 then s7
  else xx.

Definition acceptRanges (i : Z) : Z * Z :=
  if i =? 0 then (locb, hicb)
  else if i =? 1 then (0xA0, hicb)
  else if i =? 2 then (locb, 0x9F)
  else if i =? 3 then (0x90, hicb)
  else if i =? 4 then (locb, 0x8F)
  else (0, 0).

Definition DecodeRuneInString (s : bytes) : Z * nat :=
  match s with
  | [] => (RuneError, 0%nat)
  | b0 :: _ =>
      let c0 := byteZ b0 in
      let x := first c0 in
      if as_ <=? x then
        (* the mask of the source is all ones for [xx], zero for [as] *)
        ((if x =? xx then RuneError else c0), 1%nat)
      else
        let sz := Z.to_nat (Z.land x 7) in
        let accept := acceptRanges (Z.shiftr x 4) in
        if (length s <? sz)%nat then (RuneError, 1%nat)
        else
          let c1 := byteZ (at_ s 1) in
          if (c1 <? fst accept) || (snd accept <? c1) then (RuneError, 1%nat)
          else if (sz <=? 2)%nat then
            (Z.lor (Z.shiftl (Z.land c0 mask2) 6) (Z.land c1 maskx), 2%nat)
          else
            let c2 := byteZ (at_ s 2) in
            if (c2 <? locb) || (hicb <? c2) then (RuneError, 1%nat)
            else if (sz <=? 3)%nat then
              (Z.lor (Z.lor (Z.shiftl (Z.land c0 mask3) 12)
                            (Z.shiftl (Z.land c1 maskx) 6))
                     (Z.land c2 maskx), 3%nat)
            else
              let c3 := byteZ (at_ s 3) in
              if (c3 <? locb) || (hicb <? c3) then (RuneError, 1%nat)
              else
                (Z.lor (Z.lor (Z.lor (Z.shiftl (Z.land c0 mask4) 18)
                                     (Z.shiftl (Z.land c1 maskx) 12))
                              (Z.shiftl (Z.land c2 maskx) 6))
                       (Z.land c3 maskx), 4%nat)
  end.

Definition RuneStart (b : byte) : bool :=
  negb (Z.land (byteZ b) 0xC0 =? 0x80).

(** [for start--; start >= lim; start-- { if RuneStart(s[start]) { break } }],
    entered with [start] already decremented. *)
Fixpoint backToStart (fuel : nat) (s : bytes) (lim start : Z) : Z :=
  match fuel with
  | O => start
  | S k =>
      if start <? lim then start
      else if RuneStart (at_ s (Z.to_nat start)) then start
      else backToStart k s lim (start - 1)
  end.

Definition DecodeLastRuneInString (s : bytes) : Z * nat :=
  let end_ := Z.of_nat (length s) in
  if end_ =? 0 then (RuneError, 0%nat)
  else
    let r := byteZ (at_ s (Z.to_nat (end_ - 1))) in
    if r <? RuneSelf then (r, 1%nat)
    else
      let lim := Z.max 0 (end_ - Z.of_nat UTFMax) in
      let start := Z.max 0 (backToStart UTFMax s lim (end_ - 2)) in
      let '(r', size) :=
        DecodeRuneInString (slice s (Z.to_nat start) (Z.to_nat end_)) in
      if start + Z.of_nat size =? end_ then (r', size)
      else (RuneError, 1%nat).

End utf8.

(** ** Package [unicode] *)

Module unicode.

Definition MaxLatin1 : Z := 0xFF.

(** [IsSpace]: the Latin-1 cases of the source, then the rest of the
    [White_Space] range table. *)
Definition IsSpace (r : Z) : bool :=
  if (0 <=? r) && (r <=? MaxLatin1) then
    (r =? 0x09) || (r =? 0x0A) || (r =? 0x0B) || (r =? 0x0C) || (r =? 0x0D)
    || (r =? 0x20) || (r =? 0x85) || (r =? 0xA0)
  else
    (r =? 0x1680)
    || ((0x2000 <=? r) && (r <=? 0x200A))
    || ((0x2028 <=? r) && (r <=? 0x2029))
    || (r =? 0x202F) || (r =? 0x205F) || (r =? 0x3000).

End unicode.

(** ** Package [strings] *)

Module strings.

(** The table [asciiSpace]. *)
Definition asciiSpace (c : byte) : bool :=
  let z := byteZ c in
  (z =? 0x09) || (z =? 0x0A) || (z =? 0x0B) || (z =? 0x0C) || (z =? 0x0D)
  || (z =? 0x20).

(** [TrimLeftFunc(s, unicode.IsSpace)]: [indexFunc] ranges over the runes
    of [s] and stops at the first one that is not a space; the fuel is the
    number of bytes left. *)
Fixpoint trimLeftSpace (fuel : nat) (s : bytes) : bytes :=
  match fuel with
  | O => s
  | S k =>
      match s with
      | [] => []
      | _ :: _ =>
          let '(r, size) := utf8.DecodeRuneInString s in
          if unicode.IsSpace r then trimLeftSpace k (skipn size s) else s
      end
  end.

Definition TrimLeftFunc_IsSpace (s : bytes) : bytes :=
  trimLeftSpace (length s) s.

(** [lastIndexFunc(s, unicode.IsSpace, false)], [-1] when every rune is a
    space; [i] counts down from [len(s)]. *)
Fixpoint lastIndexNotSpace (fuel : nat) (s : bytes) (i : Z) : Z :=
  match fuel with
  | O => -1
  | S k =>
      if 0 <? i then
        let '(r, size) :=
          utf8.DecodeLastRuneInString (slice s 0 (Z.to_nat i)) in
        let i' := i - Z.of_nat size in
        if unicode.IsSpace r then lastIndexNotSpace k s i' else i'
      else -1
  end.

Definition TrimRightFunc_IsSpace (s : bytes) : bytes :=
  let i := lastIndexNotSpace (S (length s)) s (Z.of_nat (length s)) in
  let i' :=
    if (0 <=? i) && (utf8.RuneSelf <=? byteZ (at_ s (Z.to_nat i))) then
      i + Z.of_nat (snd (utf8.DecodeRuneInString (skipn (Z.to_nat i) s)))
    else i + 1 in
  slice s 0 (Z.to_nat i').

Definition TrimFunc_IsSpace (s : bytes) : bytes :=
  TrimRightFunc_IsSpace (TrimLeftFunc_IsSpace s).

(** The second loop of [TrimSpace]: [stop] walks down from [len(s)] to
    [start]; the argument is [s[start:stop]] reversed, so that its head
    is [s[stop-1]]. *)
Fixpoint trimSpaceStop (r : bytes) : bytes :=
  match r with
  | [] => []
  | c :: r' =>
      if utf8.RuneSelf <=? byteZ c then TrimRightFunc_IsSpace (rev r)
      else if asciiSpace c then trimSpaceStop r'
      else rev r
  end.

(** [TrimSpace]: the first loop walks [start] up; the argument of the
    recursive call is [s[start:]]. *)
Fixpoint TrimSpace (s : bytes) : bytes :=
  match s with
  | [] => []
  | c :: s' =>
      if utf8.RuneSelf <=? byteZ c then TrimFunc_IsSpace s
      else if asciiSpace c then TrimSpace s'
      else trimSpaceStop (rev s)
  end.

Definition HasSuffix (s suffix : bytes) : bool :=
  (length suffix <=? length s)%nat
  && bytes_eqb (skipn (length s - length suffix) s) suffix.

Definition TrimSuffix (s suffix : bytes) : bytes :=
  if HasSuffix s suffix then firstn (length s - length suffix) s else s.

End strings.


(** ** Package [strconv] *)

Module strconv.

Definition intSize : Z := 64.

Definition syntaxError (fn : string) (s : bytes) : error :=
  NumError fn s ErrSyntax.
Definition rangeError (fn : string) (s : bytes) : error :=
  NumError fn s ErrRange.

Definition fnAtoi : string := "Atoi".

(** The digit loop of the fast path of [Atoi]:
    [ch -= '0'; if ch > 9 { syntax error }; n = n*10 + int(ch)],
    the subtraction being one of bytes. *)
Fixpoint atoiDigits (s : bytes) (n : Z) : option Z :=
  match s with
  | [] => Some n
  | ch :: rest =>
      let d := (byteZ ch - byteZ "0") mod 256 in
      if 9 <? d then None else atoiDigits rest (n * 10 + d)
  end.

Definition maxUint64 : Z := 2 ^ 64 - 1.

(** The loop of [ParseUint(s, 10, 64)]: [None] is a syntax error, an
    error flag next to the value is a range error. *)
Fixpoint parseUintDigits (s : bytes) (n : Z) : option (Z * bool) :=
  match s with
  | [] => Some (n, false)
  | c :: rest =>
      if (byteZ "0" <=? byteZ c) && (byteZ c <=? byteZ "9") then
        let d := byteZ c - byteZ "0" in
        if maxUint64 / 10 + 1 <=? n then Some (maxUint64, true)
        else
          let n1 := n * 10 + d in
          if maxUint64 <? n1 then Some (maxUint64, true)
          else parseUintDigits rest n1
      else None
  end.

(** [ParseInt(s, 10, 0)] as [Atoi] calls it, the function name of the
    error already replaced by [fnAtoi]. *)
Definition ParseInt_base10 (s : bytes) : Z * option error :=
  match s with
  | [] => (0, Some (syntaxError fnAtoi s))
  | c :: rest =>
      let neg := Byte.eqb c "-" in
      let digits := if Byte.eqb c "+" || neg then rest else s in
      match digits with
      | [] => (0, Some (syntaxError fnAtoi s))
      | _ :: _ =>
          match parseUintDigits digits 0 with
          | None => (0, Some (syntaxError fnAtoi s))
          | Some (un, _) =>
              let cutoff := 2 ^ (intSize - 1) in
              if negb neg && (cutoff <=? un) then
                (cutoff - 1, Some (rangeError fnAtoi s))
              else if neg && (cutoff <? un) then
                (- cutoff, Some (rangeError fnAtoi s))
              else ((if neg then - un else un), None)
          end
      end
  end.

Definition Atoi (s : bytes) : Z * option error :=
  let sLen := length s in
  if (0 <? sLen)%nat && (sLen <? 19)%nat then
    (* fast path for small integers that fit the int type *)
    let s0 := s in
    let signed := Byte.eqb (at_ s 0) "-" || Byte.eqb (at_ s 0) "+" in
    let s' := if signed then skipn 1 s else s in
    if signed && (length s' <? 1)%nat then (0, Some (syntaxError fnAtoi s0))
    else
      match atoiDigits s' 0 with
      | None => (0, Some (syntaxError fnAtoi s0))
      | Some n => ((if Byte.eqb (at_ s0 0) "-" then - n else n), None)
      end
  else ParseInt_base10 s.

End strconv.

(** ** [int64] arithmetic *)

Definition minInt64 : Z := - 2 ^ 63.
Definition maxInt64 : Z := 2 ^ 63 - 1.

(** Two's-complement wrap-around of [int64] arithmetic. *)
Definition wrap64 (z : Z) : Z := (z + 2 ^ 63) mod 2 ^ 64 - 2 ^ 63.

Definition add64 (a b : Z) : Z := wrap64 (a + b).

(** [a % b] on [int64]: the remainder of the division truncated towards
    zero, of the sign of [a]. *)
Definition rem64 (a b : Z) : Z := Z.rem a b.

(** ** Package [io] *)

Module io.

(** The interface [ReaderAt].  [ReadAt n off] is the call
    [ReadAt(p, off)] on a buffer [p] of [n] bytes: it returns the bytes
    that were read, whose number is the count the method reports, and the
    error, if any.  The callers below never look at [p] beyond the
    count.  The byte source is read-only: a read is a function of the
    place it reads. *)
Record ReaderAt : Type := { ReadAt : nat -> Z -> bytes * option error }.

(** What the documentation of [io.ReaderAt] asks of an implementation:
    at most [len(p)] bytes, and an error whenever fewer are returned. *)
Definition conforming (r : ReaderAt) : Prop :=
  forall n off,
    (length (fst (ReadAt r n off)) <= n)%nat
    /\ ((length (fst (ReadAt r n off)) < n)%nat ->
        snd (ReadAt r n off) <> None).

(** The struct [SectionReader]: the source, the start of the section, the
    read position, the end of the section and the length that the caller
    asked for. *)
Record SectionReader : Type := mkSectionReader {
  sr_r : ReaderAt;
  sr_base : Z;
  sr_off : Z;
  sr_limit : Z;
  sr_n : Z
}.

(** [NewSectionReader(r, off, n)].  The end of the section is [off + n]
    only when [off <= maxint64 - n], a test made in [int64]; otherwise it
    is [maxint64]. *)
Definition NewSectionReader (r : ReaderAt) (off n : Z) : SectionReader :=
  let remaining :=
    if off <=? wrap64 (maxInt64 - n) then wrap64 (n + off) else maxInt64 in
  mkSectionReader r off off remaining n.

(** [(s *SectionReader) Size()]: the length of the section. *)
Definition Size (s : SectionReader) : Z := wrap64 (sr_limit s - sr_base s).

End io.

(** ** Package [bytes]: the in-memory byte source *)

Module bytes_.

(** [bytes.NewReader(data).ReadAt]; a file read with [os.File.ReadAt]
    behaves the same way on its contents. *)
Definition NewReader (data : bytes) : io.ReaderAt :=
  {| io.ReadAt := fun n off =>
       if off <? 0 then ([], Some (SourceError 0))
       else if Z.of_nat (length data) <=? off then ([], Some io_EOF)
       else
         let got := firstn n (skipn (Z.to_nat off) data) in
         (got, if (length got <? n)%nat then Some io_EOF else None) |}.

End bytes_.

(** ** Package [deb]: the file [deb/ar.go] *)

Record ArEntry : Type := mkArEntry {
  Name : bytes;
  Timestamp : Z;
  OwnerID : Z;
  GroupID : Z;
  FileMode : bytes;
  Size : Z;
  Data : option io.SectionReader
}.

Record Ar : Type := mkAr {
  in_ : io.ReaderAt;
  offset : Z
}.

(** The keys of the map literal of [parseArEntry].  A key is an
    [entryField{Name, Pointer}]; the pointer is one of the four [int64]
    fields of the entry under construction, which the constructor names. *)
Inductive entryField : Type :=
| toTimestamp
| toOwnerID
| toGroupID
| toSize.

Definition entryField_Name (target : entryField) : string :=
  match target with
  | toTimestamp => "Timestamp"
  | toOwnerID => "OwnerID"
  | toGroupID => "GroupID"
  | toSize => "Size"
  end.

(** [*target.Pointer = intValue]. *)
Definition entryField_store (target : entryField) (intValue : Z)
    (entry : ArEntry) : ArEntry :=
  match target with
  | toTimestamp =>
      mkArEntry (Name entry) intValue (OwnerID entry) (GroupID entry)
                (FileMode entry) (Size entry) (Data entry)
  | toOwnerID =>
      mkArEntry (Name entry) (Timestamp entry) intValue (GroupID entry)
                (FileMode entry) (Size entry) (Data entry)
  | toGroupID =>
      mkArEntry (Name entry) (Timestamp entry) (OwnerID entry) intValue
                (FileMode entry) (Size entry) (Data entry)
  | toSize =>
      mkArEntry (Name entry) (Timestamp entry) (OwnerID entry) (GroupID entry)
                (FileMode entry) intValue (Data entry)
  end.

(** [*target.Pointer]. *)
Definition entryField_load (target : entryField) (entry : ArEntry) : Z :=
  match target with
  | toTimestamp => Timestamp entry
  | toOwnerID => OwnerID entry
  | toGroupID => GroupID entry
  | toSize => Size entry
  end.

Definition entryField_eq_dec (t u : entryField) : {t = u} + {t <> u}.
Proof. decide equality. Defined.

(** The value the map literal binds to a key: a sub-slice of the line. *)
Definition entryField_value (line : bytes) (target : entryField) : bytes :=
  match target with
  | toTimestamp => slice line 16 28
  | toOwnerID => slice line 28 34
  | toGroupID => slice line 34 40
  | toSize => slice line 48 58
  end.

(** The keys of the map.  [range] visits each of them once, in an order
    that Go leaves unspecified: an iteration order is a permutation of this
    list, and the functions that range over the map take the order of the
    call as an argument. *)
Definition entryFields : list entryField :=
  [toTimestamp; toOwnerID; toGroupID; toSize].

Definition iteration_order (order : list entryField) : Prop :=
  Permutation order entryFields.

Definition toDecimal (input : bytes) : Z * option error :=
  let '(out, err) := strconv.Atoi input in
  (out, err).

(** The body of [for target, value := range map...] of [parseArEntry], over
    the keys still to be visited. *)
Fixpoint parseArEntry_range (order : list entryField) (line : bytes)
    (entry : ArEntry) : result ArEntry :=
  match order with
  | [] => OK entry
  | target :: rest =>
      let input := strings.TrimSpace (entryField_value line target) in
      if bytes_eqb input [] then parseArEntry_range rest line entry
      else
        match toDecimal input with
        | (_, Some err) => Err (ErrorfParse (entryField_Name target) err)
        | (intValue, None) =>
            parseArEntry_range rest line
              (entryField_store target intValue entry)
        end
  end.

Definition parseArEntry (order : list entryField) (line : bytes)
    : result ArEntry :=
  if negb (length line =? 60)%nat then
    Err (Errorf "Malformed file entry line length")
  else if negb (Byte.eqb (at_ line 58) x60) && negb (Byte.eqb (at_ line 59) x0a)
  then Err (Errorf "Malformed file entry line endings")
  else
    let entry :=
      {| Name := strings.TrimSuffix (strings.TrimSpace (slice line 0 16))
                                    (str "/");
         Timestamp := 0; OwnerID := 0; GroupID := 0;
         FileMode := strings.TrimSpace (slice line 40 48);
         Size := 0; Data := None |} in
    parseArEntry_range order line entry.

(** [make([]byte, n)] after [ReadAt] has stored [got] at its front. *)
Definition buffer (n : nat) (got : bytes) : bytes :=
  firstn n (got ++ repeat x00 (n - length got)).

Definition magic : bytes := str "!<arch>" ++ [x0a].

Definition checkAr (reader : io.ReaderAt) : result Z :=
  let '(got, err) := io.ReadAt reader 8 0 in
  let header := buffer 8 got in
  match err with
  | Some e => Err e
  | None =>
      if negb (bytes_eqb header magic) then
        Err (Errorf "Header doesn't look right!")
      else OK (Z.of_nat (length header))
  end.

Definition LoadAr (in' : io.ReaderAt) : result Ar :=
  match checkAr in' with
  | Err err => Err err
  | OK offset' => OK {| in_ := in'; offset := offset' |}
  end.

(** [(d *Ar) Next()]: the cursor after the call and what the call
    returns. *)
Definition Next (order : list entryField) (d : Ar) : Ar * result ArEntry :=
  let '(got, err) := io.ReadAt (in_ d) 60 (offset d) in
  let line := buffer 60 got in
  let count := length got in
  match err with
  | Some e => (d, Err e)
  | None =>
      if (count =? 1)%nat && Byte.eqb (at_ line 0) x0a then (d, Err io_EOF)
      else if negb (count =? 60)%nat then
        (d, Err (Errorf "Caught a short read at the end"))
      else
        match parseArEntry order line with
        | Err e => (d, Err e)
        | OK entry =>
            let entry' :=
              mkArEntry (Name entry) (Timestamp entry) (OwnerID entry)
                (GroupID entry) (FileMode entry) (Size entry)
                (Some (io.NewSectionReader (in_ d)
                         (add64 (offset d) (Z.of_nat count)) (Size entry))) in
            ({| in_ := in_ d;
                offset := add64 (offset d)
                            (add64 (add64 (Z.of_nat count) (Size entry))
                                   (rem64 (Size entry) 2)) |},
             OK entry')
        end
  end.

(** ** Vocabulary of the specification *)

(** The package has one error type.  A [FormatError] is an error that the
    package raises itself, with [fmt.Errorf]; end-of-archive is the value
    [io.EOF]. *)
Definition FormatError (e : error) : Prop :=
  match e with
  | Errorf _ | ErrorfParse _ _ => True
  | _ => False
  end.

Definition EndOfArchive (e : error) : Prop := e = io_EOF.

(** What the loop of [parseArEntry] finds in the field of a key: nothing
    (the field is blank), a number, or the error of [toDecimal]. *)
Definition field_decode (line : bytes) (target : entryField)
    : result (option Z) :=
  let input := strings.TrimSpace (entryField_value line target) in
  if bytes_eqb input [] then OK None
  else
    match toDecimal input with
    | (_, Some err) => Err err
    | (intValue, None) => OK (Some intValue)
    end.

Definition blank (line : bytes) (target : entryField) : Prop :=
  strings.TrimSpace (entryField_value line target) = [].

Definition malformed (line : bytes) (target : entryField) (err : error)
    : Prop :=
  strings.TrimSpace (entryField_value line target) <> []
  /\ snd (toDecimal (strings.TrimSpace (entryField_value line target)))
     = Some err.

(** The entry that [parseArEntry] builds before the loop. *)
Definition initial_entry (line : bytes) : ArEntry :=
  {| Name := strings.TrimSuffix (strings.TrimSpace (slice line 0 16)) (str "/");
     Timestamp := 0; OwnerID := 0; GroupID := 0;
     FileMode := strings.TrimSpace (slice line 40 48);
     Size := 0; Data := None |}.

(** A field after the loop has visited every key without an error. *)
Definition decoded (line : bytes) (entry : ArEntry) (target : entryField) : Z :=
  match field_decode line target with
  | OK (Some v) => v
  | _ => entryField_load target entry
  end.

Definition decoded_entry (line : bytes) (entry : ArEntry) : ArEntry :=
  mkArEntry (Name entry) (decoded line entry toTimestamp)
    (decoded line entry toOwnerID) (decoded line entry toGroupID)
    (FileMode entry) (decoded line entry toSize) (Data entry).

(** The terminator test of [parseArEntry], as the code has it. *)
Definition terminator_accepted (line : bytes) : bool :=
  negb (negb (Byte.eqb (at_ line 58) x60) && negb (Byte.eqb (at_ line 59) x0a)).

(** A run of successful calls of [Next]: the entry each call returned and
    the cursor it left, every call with an iteration order of its own. *)
Inductive Advances : Ar -> list (ArEntry * Ar) -> Prop :=
| Advances_nil : forall d, Advances d []
| Advances_cons : forall order d e d1 tr,
    iteration_order order ->
    Next order d = (d1, OK e) ->
    Advances d1 tr ->
    Advances d ((e, d1) :: tr).

(** The bytes one member occupies: header, data and pad. *)
Definition span (e : ArEntry) : Z := 60 + Size e + rem64 (Size e) 2.

Definition total_span (es : list ArEntry) : Z :=
  fold_right (fun e acc => span e + acc) 0 es.

(** *** Surrounding whitespace, in the words of the specification *)

Fixpoint dropWhile {A : Type} (p : A -> bool) (l : list A) : list A :=
  match l with
  | [] => []
  | x :: l' => if p x then dropWhile p l' else l
  end.

Definition is_ascii (c : byte) : Prop := byteZ c < 0x80.

(** The ASCII whitespace characters: tab, line feed, vertical tab, form
    feed, carriage return and space. *)
Definition whitespace (c : byte) : bool :=
  match c with
  | x09 | x0a | x0b | x0c | x0d | x20 => true
  | _ => false
  end.

(** "Trimmed of surrounding whitespace". *)
Definition trim_whitespace (s : bytes) : bytes :=
  rev (dropWhile whitespace (rev (dropWhile whitespace s))).

(** "A single trailing [/] is stripped if present". *)
Definition strip_trailing_slash (s : bytes) : bytes :=
  match rev s with
  | x2f :: r => rev r
  | _ => s
  end.

(** *** Example inputs *)

Definition pad_right (n : nat) (s : bytes) : bytes :=
  firstn n (s ++ repeat x20 (n - length s)).

(** A header line with the given field texts, space-padded to the widths
    of the format, and the given two terminator bytes. *)
Definition header_line (name mtime uid gid mode size : string)
    (t0 t1 : byte) : bytes :=
  pad_right 16 (str name) ++ pad_right 12 (str mtime) ++ pad_right 6 (str uid)
  ++ pad_right 6 (str gid) ++ pad_right 8 (str mode) ++ pad_right 10 (str size)
  ++ [t0; t1].

Definition line_foo : bytes :=
  header_line "foo/" "1342943816" "501" "20" "100644" "3" x60 x0a.

Definition line_baz : bytes :=
  header_line "baz/" "1342943816" "501" "20" "100644" "0" x60 x0a.

Definition line_debian_binary : bytes :=
  header_line "debian-binary/" "1342943816" "0" "0" "100644" "4" x60 x0a.

Definition line_second_terminator_wrong : bytes :=
  header_line "foo/" "1342943816" "501" "20" "100644" "3" x60 x00.

Definition line_first_terminator_wrong : bytes :=
  header_line "foo/" "1342943816" "501" "20" "100644" "3" x00 x0a.

Definition line_size_minus_one : bytes :=
  header_line "foo/" "1342943816" "501" "20" "100644" "-1" x60 x0a.


Definition line_size_minus_100 : bytes :=
  header_line "foo/" "1342943816" "501" "20" "100644" "-100" x60 x0a.

Definition line_two_malformed : bytes :=
  header_line "foo/" "12x" "501" "20" "100644" "3y" x60 x0a.

Definition line_blank_numbers : bytes :=
  header_line "foo/" "" "" "" "100644" "" x60 x0a.

Definition line_malformed_size : bytes :=
  header_line "foo/" "1342943816" "501" "20" "100644" "3y" x60 x0a.

(** The archive of the round-trip scenario: magic, the header of [foo],
    its three data bytes and a pad byte, the header of [baz], and whatever
    follows the last member. *)
Definition archive_foo_baz (pad : byte) (trailer : bytes) : bytes :=
  magic ++ line_foo ++ str "bar" ++ [pad] ++ line_baz ++ trailer.

(** An archive cut 40 bytes into the header of its only member. *)
Definition archive_truncated : bytes := magic ++ firstn 40 line_foo.

Definition cursor_at (data : bytes) (off : Z) : Ar :=
  {| in_ := bytes_.NewReader data; offset := off |}.

(** The members that [Next] returns for the two headers, read from the
    byte source [data]. *)
Definition member_foo (data : bytes) : ArEntry :=
  {| Name := str "foo"; Timestamp := 1342943816; OwnerID := 501;
     GroupID := 20; FileMode := str "100644"; Size := 3;
     Data := Some (io.NewSectionReader (bytes_.NewReader data) 68 3) |}.

Definition member_baz (data : bytes) : ArEntry :=
  {| Name := str "baz"; Timestamp := 1342943816; OwnerID := 501;
     GroupID := 20; FileMode := str "100644"; Size := 0;
     Data := Some (io.NewSectionReader (bytes_.NewReader data) 132 0) |}.

(** *** The text of a number *)

Definition is_digit (c : byte) : bool :=
  (byteZ "0" <=? byteZ c) && (byteZ c <=? byteZ "9").

(** An optional sign followed by one or more ASCII digits. *)
Definition decimal_text (s : bytes) : bool :=
  match s with
  | [] => false
  | c :: rest =>
      if Byte.eqb c "-" || Byte.eqb c "+" then
        match rest with
        | [] => false
        | _ :: _ => forallb is_digit rest
        end
      else forallb is_digit s
  end.

(** The text of a numeric field as the loop of [parseArEntry] sees it. *)
Definition field_text (line : bytes) (target : entryField) : bytes :=
  strings.TrimSpace (entryField_value line target).

(** A numeric field that the loop accepts: blank, or the text of a
    number. *)
Definition field_accepted (line : bytes) (t : entryField) : Prop :=
  field_text line t = [] \/ decimal_text (field_text line t) = true.

(** The width of a numeric field in the header layout. *)
Definition entryField_width (target : entryField) : nat :=
  match target with
  | toTimestamp => 12
  | toOwnerID => 6
  | toGroupID => 6
  | toSize => 10
  end.

(** The outcome of the read that [Next] issues. *)
Definition Next_read (d : Ar) : bytes * option error :=
  io.ReadAt (in_ d) 60 (offset d).

(** The cursor at the end of a run that started with the cursor [d]. *)
Fixpoint final_cursor (d : Ar) (tr : list (ArEntry * Ar)) : Ar :=
  match tr with
  | [] => d
  | (_, d1) :: tr' => final_cursor d1 tr'
  end.

(** [a] occurs in [s] as a run of consecutive bytes. *)
Definition infix (a s : bytes) : Prop :=
  exists pre post, s = pre ++ a ++ post.

(** * Properties *)

(** ** [int64] arithmetic *)

Lemma wrap64_in_range (z : Z) :
  minInt64 <= z <= maxInt64 -> wrap64 z = z.
Proof.
  unfold wrap64, minInt64, maxInt64. intros H.
  rewrite Z.mod_small; lia.
Qed.

Lemma wrap64_add_wrap64 (a b : Z) : wrap64 (a + wrap64 b) = wrap64 (a + b).
Proof.
  unfold wrap64.
  replace (a + ((b + 2 ^ 63) mod 2 ^ 64 - 2 ^ 63) + 2 ^ 63)
    with (a + (b + 2 ^ 63) mod 2 ^ 64) by ring.
  rewrite Zplus_mod_idemp_r. f_equal. f_equal. ring.
Qed.

Lemma wrap64_wrap64_add (a b : Z) : wrap64 (wrap64 a + b) = wrap64 (a + b).
Proof.
  rewrite (Z.add_comm (wrap64 a)), wrap64_add_wrap64. f_equal. ring.
Qed.

(** The offset arithmetic of [Next], without its intermediate wraps. *)
Lemma Next_offset_arith (off size : Z) :
  add64 off (add64 (add64 60 size) (rem64 size 2))
  = wrap64 (off + 60 + size + rem64 size 2).
Proof.
  unfold add64.
  rewrite wrap64_wrap64_add, wrap64_add_wrap64. f_equal. ring.
Qed.

Lemma rem64_2_nonneg (size : Z) :
  0 <= size -> rem64 size 2 = if Z.odd size then 1 else 0.
Proof.
  intros H. unfold rem64. rewrite Z.rem_mod_nonneg by lia.
  rewrite Zmod_odd. reflexivity.
Qed.

Lemma wrap64_above (z : Z) :
  maxInt64 < z <= maxInt64 + 2 ^ 64 -> wrap64 z = z - 2 ^ 64.
Proof.
  unfold wrap64, maxInt64. intros H.
  replace (z + 2 ^ 63) with ((z - 2 ^ 63) + 1 * 2 ^ 64)
    by (change (2 ^ 64) with (2 * 2 ^ 63); ring).
  rewrite Z.mod_add by (vm_compute; discriminate).
  rewrite Z.mod_small by (change (2 ^ 64) with (2 * 2 ^ 63) in *; lia).
  change (2 ^ 64) with (2 * 2 ^ 63). ring.
Qed.

(** ** The section of a [SectionReader] *)

(** For a length that is not negative and a section that ends within
    [int64], the section is the one asked for. *)
Lemma NewSectionReader_nonneg (r : io.ReaderAt) (off n : Z) :
  0 <= n <= maxInt64 -> minInt64 <= off -> off + n <= maxInt64 ->
  io.sr_limit (io.NewSectionReader r off n) = off + n
  /\ io.Size (io.NewSectionReader r off n) = n.
Proof.
  intros Hn Hoff Hend. unfold io.Size, io.NewSectionReader.
  cbn [io.sr_limit io.sr_base].
  rewrite (wrap64_in_range (maxInt64 - n))
    by (unfold minInt64, maxInt64 in *; lia).
  replace (off <=? maxInt64 - n) with true
    by (symmetry; apply Z.leb_le; lia).
  rewrite (wrap64_in_range (n + off))
    by (unfold minInt64, maxInt64 in *; lia).
  split; [ring|].
  replace (n + off - off) with n by ring.
  apply wrap64_in_range. unfold minInt64, maxInt64 in *. lia.
Qed.

(** For a negative length, [maxint64 - n] overflows and the test of
    [NewSectionReader] fails for every start above [minInt64 - n - 1]: the
    section then runs to [maxint64]. *)
Lemma NewSectionReader_negative (r : io.ReaderAt) (off n : Z) :
  minInt64 <= n < 0 -> minInt64 - n - 1 < off ->
  io.sr_limit (io.NewSectionReader r off n) = maxInt64.
Proof.
  intros Hn Hoff. unfold io.NewSectionReader. cbn [io.sr_limit].
  rewrite (wrap64_above (maxInt64 - n))
    by (unfold minInt64, maxInt64 in *;
        change (2 ^ 64) with (2 * 2 ^ 63); lia).
  replace (off <=? maxInt64 - n - 2 ^ 64) with false; [reflexivity|].
  symmetry. apply Z.leb_gt. unfold minInt64, maxInt64 in *.
  change (2 ^ 64) with (2 * 2 ^ 63). lia.
Qed.

(** ** The buffer of a read *)

Lemma buffer_full (n : nat) (got : bytes) :
  length got = n -> buffer n got = got.
Proof.
  intros H. unfold buffer. rewrite H, Nat.sub_diag. simpl.
  rewrite app_nil_r. rewrite <- H. apply firstn_all.
Qed.

(** ** What a call of [Next] did, read off its result *)

Lemma Next_OK_inv (order : list entryField) (d d' : Ar) (e : ArEntry) :
  Next order d = (d', OK e) ->
  exists line entry,
    io.ReadAt (in_ d) 60 (offset d) = (line, None)
    /\ length line = 60%nat
    /\ parseArEntry order line = OK entry
    /\ e = mkArEntry (Name entry) (Timestamp entry) (OwnerID entry)
             (GroupID entry) (FileMode entry) (Size entry)
             (Some (io.NewSectionReader (in_ d) (wrap64 (offset d + 60))
                      (Size entry)))
    /\ d' = mkAr (in_ d) (wrap64 (offset d + 60 + Size entry
                                  + rem64 (Size entry) 2)).
Proof.
  unfold Next. destruct (io.ReadAt (in_ d) 60 (offset d)) as [got err] eqn:Hread.
  destruct err as [e0|]; [discriminate|].
  destruct ((length got =? 1)%nat && Byte.eqb (at_ (buffer 60 got) 0) x0a);
    [discriminate|].
  destruct (length got =? 60)%nat eqn:Hlen; simpl; [|discriminate].
  apply Nat.eqb_eq in Hlen.
  rewrite (buffer_full 60 got Hlen).
  destruct (parseArEntry order got) as [entry|e0] eqn:Hparse; [|discriminate].
  intros H. injection H as Hd He. exists got, entry.
  rewrite Hlen in Hd, He. change (Z.of_nat 60) with 60 in Hd, He.
  rewrite Next_offset_arith in Hd. unfold add64 in He.
  repeat split; auto.
Qed.

Lemma Next_Err_inv (order : list entryField) (d d' : Ar) (err : error) :
  Next order d = (d', Err err) -> d' = d.
Proof.
  unfold Next. destruct (io.ReadAt (in_ d) 60 (offset d)) as [got e0].
  destruct e0 as [e0|]; [intros H; injection H; auto|].
  destruct ((length got =? 1)%nat && Byte.eqb (at_ (buffer 60 got) 0) x0a);
    [intros H; injection H; auto|].
  destruct (negb (length got =? 60)%nat); [intros H; injection H; auto|].
  destruct (parseArEntry order (buffer 60 got));
    [discriminate | intros H; injection H; auto].
Qed.

(** With a byte source that keeps the contract of [io.ReaderAt], a read of
    fewer than 60 bytes comes with an error, and [Next] returns that error
    before it looks at the count: neither the one-byte test nor the
    short-read test is reached. *)
Lemma Next_short_read_conforming (order : list entryField) (d : Ar) :
  io.conforming (in_ d) ->
  (length (fst (io.ReadAt (in_ d) 60 (offset d))) < 60)%nat ->
  exists e, snd (io.ReadAt (in_ d) 60 (offset d)) = Some e
            /\ Next order d = (d, Err e).
Proof.
  intros Hc Hshort. destruct (Hc 60%nat (offset d)) as [_ Herr].
  specialize (Herr Hshort). unfold Next.
  destruct (io.ReadAt (in_ d) 60 (offset d)) as [got err]. simpl in *.
  destruct err as [e|]; [|congruence]. exists e. auto.
Qed.

(** Without a read error, the count alone decides: one newline byte is the
    end of the archive, any other count but 60 is a short read. *)
Lemma Next_count_tests (order : list entryField) (d : Ar) (got : bytes) :
  io.ReadAt (in_ d) 60 (offset d) = (got, None) ->
  (got = [x0a] -> Next order d = (d, Err io_EOF))
  /\ (length got <> 60%nat -> got <> [x0a] ->
      Next order d = (d, Err (Errorf "Caught a short read at the end"))).
Proof.
  intros Hread. unfold Next. rewrite Hread. split.
  - intros ->. reflexivity.
  - intros Hlen Hnl.
    destruct ((length got =? 1)%nat && Byte.eqb (at_ (buffer 60 got) 0) x0a)
      eqn:Hone.
    + exfalso. apply andb_true_iff in Hone as [H1 Hb].
      apply Nat.eqb_eq in H1.
      destruct got as [|c [|c' got']]; try discriminate.
      apply Hnl. f_equal.
      unfold buffer, at_ in Hb. simpl in Hb.
      apply Byte.byte_dec_bl in Hb. exact Hb.
    + apply Nat.eqb_neq in Hlen. rewrite Hlen. reflexivity.
Qed.

(** ** The loop of [parseArEntry] *)

Lemma bytes_eqb_nil (s : bytes) : bytes_eqb s [] = true <-> s = [].
Proof.
  unfold bytes_eqb. destruct (list_eq_dec Byte.byte_eq_dec s []); split;
    intros; congruence.
Qed.

Lemma bytes_eqb_eq (a b : bytes) : bytes_eqb a b = true <-> a = b.
Proof.
  unfold bytes_eqb. destruct (list_eq_dec Byte.byte_eq_dec a b); split;
    intros; congruence.
Qed.

(** One turn of the loop, in terms of [field_decode]. *)
Lemma parseArEntry_range_step (target : entryField) (rest : list entryField)
    (line : bytes) (entry : ArEntry) :
  parseArEntry_range (target :: rest) line entry =
  match field_decode line target with
  | OK None => parseArEntry_range rest line entry
  | OK (Some v) =>
      parseArEntry_range rest line (entryField_store target v entry)
  | Err err => Err (ErrorfParse (entryField_Name target) err)
  end.
Proof.
  simpl. unfold field_decode.
  destruct (bytes_eqb (strings.TrimSpace (entryField_value line target)) []);
    [reflexivity|].
  destruct (toDecimal (strings.TrimSpace (entryField_value line target)))
    as [v [err|]]; reflexivity.
Qed.

Lemma blank_decode (line : bytes) (target : entryField) :
  blank line target <-> field_decode line target = OK None.
Proof.
  unfold blank, field_decode.
  destruct (bytes_eqb (strings.TrimSpace (entryField_value line target)) [])
    eqn:E.
  - apply bytes_eqb_nil in E. split; auto.
  - split.
    + intros H. apply bytes_eqb_nil in H. congruence.
    + destruct (toDecimal _) as [v [err|]]; discriminate.
Qed.

Lemma malformed_decode (line : bytes) (target : entryField) (err : error) :
  malformed line target err <-> field_decode line target = Err err.
Proof.
  unfold malformed, field_decode.
  destruct (bytes_eqb (strings.TrimSpace (entryField_value line target)) [])
    eqn:E.
  - apply bytes_eqb_nil in E. split; [intros [H _]; congruence | discriminate].
  - assert (Hne : strings.TrimSpace (entryField_value line target) <> []).
    { intros H. apply bytes_eqb_nil in H. congruence. }
    destruct (toDecimal _) as [v [err'|]]; simpl; split.
    + intros [_ H]. congruence.
    + intros H. split; congruence.
    + intros [_ H]. discriminate.
    + discriminate.
Qed.

Lemma store_load_same (t : entryField) (v : Z) (e : ArEntry) :
  entryField_load t (entryField_store t v e) = v.
Proof. destruct t; reflexivity. Qed.

Lemma store_load_other (t u : entryField) (v : Z) (e : ArEntry) :
  t <> u -> entryField_load u (entryField_store t v e) = entryField_load u e.
Proof. destruct t, u; try reflexivity; congruence. Qed.

Lemma store_text (t : entryField) (v : Z) (e : ArEntry) :
  Name (entryField_store t v e) = Name e
  /\ FileMode (entryField_store t v e) = FileMode e
  /\ Data (entryField_store t v e) = Data e.
Proof. destruct t; auto. Qed.

(** A loop that ends without an error has written the number of every
    visited field that holds one, and nothing else. *)
Lemma parseArEntry_range_OK (order : list entryField) (line : bytes) :
  forall entry e,
    parseArEntry_range order line entry = OK e ->
    Name e = Name entry /\ FileMode e = FileMode entry /\ Data e = Data entry
    /\ (forall t, In t order -> exists ov, field_decode line t = OK ov)
    /\ (forall t, In t order -> entryField_load t e = decoded line entry t)
    /\ (forall t, ~ In t order -> entryField_load t e = entryField_load t entry).
Proof.
  induction order as [|target rest IH]; intros entry e H.
  - simpl in H. injection H as <-. repeat split; auto; intros t [].
  - rewrite parseArEntry_range_step in H.
    destruct (field_decode line target) as [[v|]|err] eqn:Hd; [| |discriminate].
    + apply IH in H as (Hn & Hm & Hdt & Hall & Hin & Hout).
      destruct (store_text target v entry) as (Sn & Sm & Sd).
      repeat split; try congruence.
      * intros t [<-|Ht]; eauto.
      * intros t Ht. destruct (in_dec entryField_eq_dec t rest) as [Hr|Hr].
        -- rewrite (Hin t Hr). unfold decoded.
           destruct (field_decode line t) as [[w|]|] eqn:Hdt'; auto;
             (destruct (entryField_eq_dec target t) as [->|Hne];
              [congruence | apply store_load_other; auto]).
        -- destruct Ht as [<-|Ht]; [|contradiction].
           rewrite (Hout target Hr), store_load_same.
           unfold decoded. rewrite Hd. reflexivity.
      * intros t Ht. rewrite Hout by (intros Hr; apply Ht; right; auto).
        apply store_load_other. intros ->. apply Ht. left; auto.
    + apply IH in H as (Hn & Hm & Hdt & Hall & Hin & Hout).
      repeat split; auto.
      * intros t [<-|Ht]; eauto.
      * intros t Ht. destruct (in_dec entryField_eq_dec t rest) as [Hr|Hr];
          auto.
        destruct Ht as [<-|Ht]; [|contradiction].
        rewrite (Hout target Hr). unfold decoded. rewrite Hd. reflexivity.
      * intros t Ht. apply Hout. intros Hr; apply Ht; right; auto.
Qed.

(** A loop that meets no malformed field ends without an error. *)
Lemma parseArEntry_range_total (order : list entryField) (line : bytes) :
  (forall t, In t order -> exists ov, field_decode line t = OK ov) ->
  forall entry, exists e, parseArEntry_range order line entry = OK e.
Proof.
  induction order as [|target rest IH]; intros Hall entry.
  - exists entry. reflexivity.
  - rewrite parseArEntry_range_step.
    destruct (Hall target (or_introl eq_refl)) as [ov Hov]. rewrite Hov.
    destruct ov; apply IH; intros t Ht; apply Hall; right; auto.
Qed.

(** A loop that ends with an error names the first visited field that is
    malformed, and wraps the error of that field. *)
Lemma parseArEntry_range_Err (order : list entryField) (line : bytes) :
  forall entry err,
    parseArEntry_range order line entry = Err err ->
    exists before target after err',
      order = before ++ target :: after
      /\ (forall t, In t before -> exists ov, field_decode line t = OK ov)
      /\ field_decode line target = Err err'
      /\ err = ErrorfParse (entryField_Name target) err'.
Proof.
  induction order as [|target rest IH]; intros entry err H.
  - discriminate.
  - rewrite parseArEntry_range_step in H.
    destruct (field_decode line target) as [[v|]|e0] eqn:Hd.
    + apply IH in H as (b & t & a & e' & -> & Hb & Ht & ->).
      exists (target :: b), t, a, e'. repeat split; auto.
      intros u [<-|Hu]; eauto.
    + apply IH in H as (b & t & a & e' & -> & Hb & Ht & ->).
      exists (target :: b), t, a, e'. repeat split; auto.
      intros u [<-|Hu]; eauto.
    + injection H as <-. exists [], target, rest, e0.
      repeat split; auto. intros t [].
Qed.

(** A malformed field among the visited ones makes the loop fail. *)
Lemma parseArEntry_range_malformed (order : list entryField) (line : bytes)
    (target : entryField) (err : error) :
  In target order -> field_decode line target = Err err ->
  forall entry, exists err', parseArEntry_range order line entry = Err err'.
Proof.
  intros Hin Hd entry.
  destruct (parseArEntry_range order line entry) as [e|err'] eqn:H; eauto.
  apply parseArEntry_range_OK in H as (_ & _ & _ & Hall & _).
  destruct (Hall target Hin) as [ov Hov]. congruence.
Qed.

Lemma iteration_order_In (order : list entryField) (t : entryField) :
  iteration_order order -> In t order.
Proof.
  intros H. apply (Permutation_in t (Permutation_sym H)).
  destruct t; simpl; auto.
Qed.

Lemma ArEntry_ext (a b : ArEntry) :
  Name a = Name b -> FileMode a = FileMode b -> Data a = Data b ->
  (forall t, entryField_load t a = entryField_load t b) -> a = b.
Proof.
  intros Hn Hm Hd Hl.
  pose proof (Hl toTimestamp). pose proof (Hl toOwnerID).
  pose proof (Hl toGroupID). pose proof (Hl toSize).
  destruct a, b; simpl in *; congruence.
Qed.

(** Whatever the iteration order, a loop that ends without an error ends
    with the same entry. *)
Lemma parseArEntry_range_order (order : list entryField) (line : bytes)
    (entry e : ArEntry) :
  iteration_order order ->
  parseArEntry_range order line entry = OK e ->
  e = decoded_entry line entry.
Proof.
  intros Hord H.
  apply parseArEntry_range_OK in H as (Hn & Hm & Hd & _ & Hin & _).
  apply ArEntry_ext; auto.
  intros t. rewrite (Hin t (iteration_order_In order t Hord)).
  destruct t; reflexivity.
Qed.

(** ** [parseArEntry], case by case *)

Lemma parseArEntry_unfold (order : list entryField) (line : bytes) :
  length line = 60%nat -> terminator_accepted line = true ->
  parseArEntry order line
  = parseArEntry_range order line (initial_entry line).
Proof.
  intros Hlen Hterm. unfold parseArEntry.
  rewrite Hlen. simpl. unfold terminator_accepted in Hterm.
  apply negb_true_iff in Hterm. rewrite Hterm. reflexivity.
Qed.

Lemma parseArEntry_OK_inv (order : list entryField) (line : bytes)
    (e : ArEntry) :
  parseArEntry order line = OK e ->
  length line = 60%nat /\ terminator_accepted line = true
  /\ parseArEntry_range order line (initial_entry line) = OK e.
Proof.
  unfold parseArEntry, terminator_accepted.
  destruct (length line =? 60)%nat eqn:Hlen; simpl; [|discriminate].
  apply Nat.eqb_eq in Hlen.
  destruct (negb (Byte.eqb (at_ line 58) x60)
            && negb (Byte.eqb (at_ line 59) x0a)); [discriminate|].
  auto.
Qed.

(** A line of 60 bytes that passes the terminator test and has no
    malformed numeric field decodes, to the same entry in every iteration
    order. *)
Lemma parseArEntry_OK_intro (order : list entryField) (line : bytes) :
  iteration_order order ->
  length line = 60%nat -> terminator_accepted line = true ->
  (forall t, exists ov, field_decode line t = OK ov) ->
  parseArEntry order line = OK (decoded_entry line (initial_entry line)).
Proof.
  intros Hord Hlen Hterm Hall.
  rewrite parseArEntry_unfold by assumption.
  destruct (parseArEntry_range_total order line (fun t _ => Hall t)
              (initial_entry line)) as [e He].
  rewrite He. f_equal. eapply parseArEntry_range_order; eauto.
Qed.

Lemma all_fields (P : entryField -> Prop) :
  P toTimestamp -> P toOwnerID -> P toGroupID -> P toSize -> forall t, P t.
Proof. intros ? ? ? ? []; assumption. Qed.

Lemma terminator_accepted_iff (line : bytes) :
  terminator_accepted line = true <-> at_ line 58 = x60 \/ at_ line 59 = x0a.
Proof.
  unfold terminator_accepted. rewrite negb_true_iff, andb_false_iff.
  rewrite !negb_false_iff. split; intros [H|H].
  - left. apply Byte.byte_dec_bl, H.
  - right. apply Byte.byte_dec_bl, H.
  - left. apply Byte.byte_dec_lb, H.
  - right. apply Byte.byte_dec_lb, H.
Qed.

(** ** The header terminator (C1) *)

(** A line of 60 bytes that passes the terminator test and has no
    malformed numeric field decodes, whatever keys the loop visits. *)
Lemma parseArEntry_accepts (order : list entryField) (line : bytes) :
  length line = 60%nat -> terminator_accepted line = true ->
  (forall t, exists ov, field_decode line t = OK ov) ->
  exists e, parseArEntry order line = OK e
            /\ Name e = Name (initial_entry line).
Proof.
  intros Hlen Hterm Hall. rewrite parseArEntry_unfold by assumption.
  destruct (parseArEntry_range_total order line (fun t _ => Hall t)
              (initial_entry line)) as [e He].
  exists e. split; [exact He|].
  apply parseArEntry_range_OK in He as (Hn & _). exact Hn.
Qed.

(** C1, as the code has it: [parseArEntry] rejects a line only when both
    terminator bytes are wrong.  A header whose terminator bytes are
    [0x60 0x00], and one whose terminator bytes are [0x00 0x0A], all other
    fields well-formed, decode to the entry [foo] of size 3; they decode
    whatever keys the loop visits and in whatever order. *)
Theorem parseArEntry_accepts_one_wrong_terminator :
  at_ line_second_terminator_wrong 59 <> x0a
  /\ parseArEntry entryFields line_second_terminator_wrong
     = OK {| Name := str "foo"; Timestamp := 1342943816; OwnerID := 501;
             GroupID := 20; FileMode := str "100644"; Size := 3;
             Data := None |}
  /\ at_ line_first_terminator_wrong 58 <> x60
  /\ parseArEntry entryFields line_first_terminator_wrong
     = OK {| Name := str "foo"; Timestamp := 1342943816; OwnerID := 501;
             GroupID := 20; FileMode := str "100644"; Size := 3;
             Data := None |}
  /\ forall order : list entryField,
      (exists e, parseArEntry order line_second_terminator_wrong = OK e
                 /\ Name e = str "foo")
      /\ (exists e, parseArEntry order line_first_terminator_wrong = OK e
                    /\ Name e = str "foo").
Proof.
  split; [vm_compute; discriminate|].
  split; [vm_compute; reflexivity|].
  split; [vm_compute; discriminate|].
  split; [vm_compute; reflexivity|].
  intros order.
  split; apply parseArEntry_accepts; try reflexivity;
    apply all_fields; eexists; vm_compute; reflexivity.
Qed.

(** ** Short reads (C2) *)

(** C2, as the code has it: on an archive cut 40 bytes into a header, read
    through an in-memory byte source, [Next] returns [io.EOF], the value
    that signals the end of the archive, and not the short-read error: the
    byte source reports [io.EOF] with the 40 bytes, and [Next] returns the
    error of the read before it tests the count. *)
Theorem Next_truncated_header_returns_EOF :
  forall order : list entryField,
    io.ReadAt (bytes_.NewReader archive_truncated) 60 8
    = (firstn 40 line_foo, Some io_EOF)
    /\ length (firstn 40 line_foo) = 40%nat
    /\ Next order (cursor_at archive_truncated 8)
       = (cursor_at archive_truncated 8, Err io_EOF)
    /\ EndOfArchive io_EOF /\ ~ FormatError io_EOF.
Proof.
  intros order. split; [reflexivity|]. split; [reflexivity|].
  split; [reflexivity|]. split; [reflexivity|]. intros H. exact H.
Qed.

(** ** Errors leave the cursor alone (C10) *)

(** C10: when [Next] returns an error (the error of the read, the
    end-of-archive value, the short-read error or the error of the header
    decoder) the cursor after the call is the cursor before it, and so is
    its offset. *)
Theorem Next_error_keeps_cursor (order : list entryField) (d d' : Ar)
    (err : error) :
  Next order d = (d', Err err) -> d' = d /\ offset d' = offset d.
Proof.
  intros H. apply Next_Err_inv in H. subst d'. split; reflexivity.
Qed.

Lemma Next_error_keeps_cursor_witness :
  Next entryFields (cursor_at archive_truncated 8)
  = (cursor_at archive_truncated 8, Err io_EOF)
  /\ cursor_at archive_truncated 8 = cursor_at archive_truncated 8
  /\ offset (cursor_at archive_truncated 8)
     = offset (cursor_at archive_truncated 8).
Proof.
  split; [reflexivity|].
  apply (Next_error_keeps_cursor entryFields (cursor_at archive_truncated 8)
           (cursor_at archive_truncated 8) io_EOF).
  reflexivity.
Defined.

(** ** The offset after a successful call (C5) *)

(** C5 does not hold as stated: the size field [-1] decodes to the odd size
    [-1], and the successful call moves the offset from 8 to 66, that is by
    [60 + size - 1] and not by [60 + size + 1]; the cursor stops one byte
    before the end of the data range instead of one pad byte after it. *)
Lemma Next_negative_odd_size_no_pad :
  iteration_order entryFields
  /\ Next entryFields (cursor_at (magic ++ line_size_minus_one) 8)
     = (cursor_at (magic ++ line_size_minus_one) 66,
        OK {| Name := str "foo"; Timestamp := 1342943816; OwnerID := 501;
              GroupID := 20; FileMode := str "100644"; Size := -1;
              Data := Some (io.NewSectionReader
                              (bytes_.NewReader (magic ++ line_size_minus_one))
                              68 (-1)) |})
  /\ Z.odd (-1) = true
  /\ 66 <> 8 + 60 + -1 + 1.
Proof.
  split; [apply Permutation_refl|].
  split; [vm_compute; reflexivity|].
  split; [reflexivity | discriminate].
Qed.

(** ** The offset along a run (C3) *)

(** C3 does not hold as stated: [strconv.Atoi] accepts a sign, the size
    field [-100] decodes to the size [-100], and the successful call moves
    the offset from 8 back to [-32]. *)
Lemma Next_offset_moves_back :
  iteration_order entryFields
  /\ Next entryFields (cursor_at (magic ++ line_size_minus_100) 8)
     = (cursor_at (magic ++ line_size_minus_100) (-32),
        OK {| Name := str "foo"; Timestamp := 1342943816; OwnerID := 501;
              GroupID := 20; FileMode := str "100644"; Size := -100;
              Data := Some (io.NewSectionReader
                              (bytes_.NewReader (magic ++ line_size_minus_100))
                              68 (-100)) |})
  /\ offset (cursor_at (magic ++ line_size_minus_100) (-32))
     < offset (cursor_at (magic ++ line_size_minus_100) 8).
Proof.
  split; [apply Permutation_refl|].
  split; [vm_compute; reflexivity | reflexivity].
Qed.

Lemma span_nonneg_size (e : ArEntry) : 0 <= Size e -> 60 <= span e.
Proof.
  intros H. unfold span. rewrite rem64_2_nonneg by assumption.
  destruct (Z.odd (Size e)); lia.
Qed.

Lemma total_span_nonneg (es : list ArEntry) :
  Forall (fun e => 0 <= Size e) es -> 0 <= total_span es.
Proof.
  induction 1 as [|e es He _ IH]; simpl; [lia|].
  pose proof (span_nonneg_size e He). lia.
Qed.

(** C3, amended: along every run of successful calls of [Next] in which
    each decoded size is non-negative and the offsets stay within [int64],
    the offsets of the cursor, from the one before the first call to the
    one after the last, are in non-decreasing order. *)
Theorem Advances_offset_monotone (d : Ar) (tr : list (ArEntry * Ar)) :
  Advances d tr ->
  Forall (fun e => 0 <= Size e) (map fst tr) ->
  minInt64 <= offset d ->
  offset d + total_span (map fst tr) <= maxInt64 ->
  Sorted Z.le (offset d :: map (fun p => offset (snd p)) tr).
Proof.
  induction 1 as [d|order d e d1 tr Hord Hnext Hadv IH]; intros Hsz Hlo Hhi.
  - simpl. constructor; constructor.
  - simpl in *. inversion Hsz as [|? ? He Hrest]; subst.
    pose proof (span_nonneg_size e He) as Hspan.
    pose proof (total_span_nonneg _ Hrest) as Htot.
    apply Next_OK_inv in Hnext as (line & entry & _ & _ & _ & He' & Hd1).
    assert (Hsize : Size e = Size entry) by (rewrite He'; reflexivity).
    assert (Hoff : offset d1 = offset d + span e).
    { rewrite Hd1. cbn [offset]. unfold span in *. rewrite Hsize in *.
      rewrite wrap64_in_range; lia. }
    constructor.
    + apply IH; auto; lia.
    + constructor. lia.
Qed.

Lemma Advances_offset_monotone_witness :
  Advances (cursor_at (archive_foo_baz x0a []) 8)
    [(member_foo (archive_foo_baz x0a []),
      cursor_at (archive_foo_baz x0a []) 72);
     (member_baz (archive_foo_baz x0a []),
      cursor_at (archive_foo_baz x0a []) 132)]
  /\ Sorted Z.le [8; 72; 132].
Proof.
  assert (Hrun :
    Advances (cursor_at (archive_foo_baz x0a []) 8)
      [(member_foo (archive_foo_baz x0a []),
        cursor_at (archive_foo_baz x0a []) 72);
       (member_baz (archive_foo_baz x0a []),
        cursor_at (archive_foo_baz x0a []) 132)]).
  { apply (Advances_cons entryFields); [apply Permutation_refl | vm_compute; reflexivity |].
    apply (Advances_cons entryFields); [apply Permutation_refl | vm_compute; reflexivity |].
    apply Advances_nil. }
  split; [exact Hrun|].
  apply (Advances_offset_monotone _ _ Hrun).
  - repeat constructor; simpl; lia.
  - vm_compute; discriminate.
  - vm_compute; discriminate.
Defined.

(** ** The sign of a decoded number (C4) *)









(** ** Trimming (C6, C7) *)

Lemma asciiSpace_whitespace (c : byte) :
  strings.asciiSpace c = whitespace c.
Proof. destruct c; reflexivity. Qed.

Lemma is_ascii_below_RuneSelf (c : byte) :
  is_ascii c -> (utf8.RuneSelf <=? byteZ c) = false.
Proof. unfold is_ascii, utf8.RuneSelf. intros H. apply Z.leb_gt. exact H. Qed.

Lemma trimSpaceStop_ascii (r : bytes) :
  Forall is_ascii r ->
  strings.trimSpaceStop r = rev (dropWhile whitespace r).
Proof.
  induction 1 as [|c r Hc _ IH]; [reflexivity|].
  cbn [strings.trimSpaceStop dropWhile].
  rewrite (is_ascii_below_RuneSelf c Hc), asciiSpace_whitespace.
  destruct (whitespace c); [exact IH | reflexivity].
Qed.

(** On ASCII text, [strings.TrimSpace] removes the leading and the
    trailing whitespace and nothing else. *)
Lemma TrimSpace_ascii (s : bytes) :
  Forall is_ascii s -> strings.TrimSpace s = trim_whitespace s.
Proof.
  induction 1 as [|c s Hc Hs IH]; [reflexivity|].
  cbn [strings.TrimSpace]. unfold trim_whitespace. cbn [dropWhile].
  rewrite (is_ascii_below_RuneSelf c Hc), asciiSpace_whitespace.
  destruct (whitespace c); [exact IH|].
  apply trimSpaceStop_ascii. apply Forall_rev. constructor; assumption.
Qed.

Lemma TrimSuffix_slash (s : bytes) :
  strings.TrimSuffix s (str "/") = strip_trailing_slash s.
Proof.
  unfold strings.TrimSuffix, strings.HasSuffix, strip_trailing_slash.
  change (str "/") with [x2f].
  destruct s as [|c0 s0 _] using rev_ind; [reflexivity|].
  rewrite rev_app_distr, length_app. cbn [length rev app].
  replace (length s0 + 1 - 1)%nat with (length s0) by lia.
  replace (1 <=? length s0 + 1)%nat with true
    by (symmetry; apply Nat.leb_le; lia).
  rewrite skipn_app, skipn_all, Nat.sub_diag. cbn [skipn app andb].
  rewrite firstn_app, firstn_all, Nat.sub_diag. cbn [firstn].
  rewrite app_nil_r, rev_involutive.
  destruct (Byte.byte_eq_dec c0 x2f) as [->|Hne].
  - reflexivity.
  - destruct (bytes_eqb [c0] [x2f]) eqn:E.
    + apply bytes_eqb_eq in E. injection E as E. contradiction.
    + destruct c0; try reflexivity. contradiction.
Qed.

Lemma dropWhile_prefix {A : Type} (p : A -> bool) (l : list A) :
  exists pre, l = pre ++ dropWhile p l /\ Forall (fun x => p x = true) pre.
Proof.
  induction l as [|x l [pre [Hl Hpre]]]; [exists []; auto|].
  simpl. destruct (p x) eqn:E.
  - exists (x :: pre). split; [simpl; congruence | constructor; auto].
  - exists []. auto.
Qed.

Lemma dropWhile_head {A : Type} (p : A -> bool) (l : list A) (x : A)
    (l' : list A) :
  dropWhile p l = x :: l' -> p x = false.
Proof.
  induction l as [|y l IH]; simpl; [discriminate|].
  destruct (p y) eqn:E; [exact IH|]. intros H. injection H as -> _. exact E.
Qed.

(** [trim_whitespace] is a trimming: the input is the result between a run
    of whitespace and a run of whitespace, and the result neither begins
    nor ends with whitespace. *)
Lemma trim_whitespace_spec (s : bytes) :
  exists pre post,
    s = pre ++ trim_whitespace s ++ post
    /\ Forall (fun c => whitespace c = true) pre
    /\ Forall (fun c => whitespace c = true) post
    /\ (forall c t, trim_whitespace s = c :: t -> whitespace c = false)
    /\ (forall t c, trim_whitespace s = t ++ [c] -> whitespace c = false).
Proof.
  unfold trim_whitespace.
  destruct (dropWhile_prefix whitespace s) as [pre [Hs Hpre]].
  destruct (dropWhile_prefix whitespace (rev (dropWhile whitespace s)))
    as [tsop [Hm Htsop]].
  set (m := dropWhile whitespace s) in *.
  set (k := dropWhile whitespace (rev m)) in *.
  assert (Hm' : m = rev k ++ rev tsop).
  { rewrite <- rev_app_distr, <- Hm, rev_involutive. reflexivity. }
  exists pre, (rev tsop). repeat split.
  - rewrite <- Hm'. exact Hs.
  - exact Hpre.
  - apply Forall_rev. exact Htsop.
  - intros c t Hk. destruct (rev k) as [|c' t'] eqn:Hrk; [discriminate|].
    injection Hk as -> ->. rewrite Hm' in *. simpl in Hm'.
    apply (dropWhile_head whitespace s c (t ++ rev tsop)). exact Hm'.
  - intros t c Hk. assert (Hk' : k = c :: rev t).
    { rewrite <- (rev_involutive k), Hk, rev_app_distr. reflexivity. }
    apply (dropWhile_head whitespace (rev m) c (rev t)). exact Hk'.
Qed.

(** ** The decoded name (C7) *)

(** C7: the name of a decoded entry is the name field (the first 16 bytes
    of the line) after [strings.TrimSpace] and the removal of one trailing
    [/]; on an ASCII name field that is the field without its leading and
    trailing whitespace and without one trailing [/]; and the name field
    [debian-binary/], space-padded, decodes to [debian-binary]. *)
Theorem parseArEntry_name (order : list entryField) (line : bytes)
    (e : ArEntry) :
  parseArEntry order line = OK e ->
  Name e = strings.TrimSuffix (strings.TrimSpace (slice line 0 16)) (str "/")
  /\ (Forall is_ascii (slice line 0 16) ->
      Name e = strip_trailing_slash (trim_whitespace (slice line 0 16)))
  /\ (slice line 0 16 = pad_right 16 (str "debian-binary/") ->
      Name e = str "debian-binary").
Proof.
  intros H. apply parseArEntry_OK_inv in H as (_ & _ & H).
  apply parseArEntry_range_OK in H as (Hn & _).
  cbn [Name initial_entry] in Hn. repeat split.
  - exact Hn.
  - intros Hascii. rewrite Hn, TrimSuffix_slash, TrimSpace_ascii by assumption.
    reflexivity.
  - intros Hfield. rewrite Hn, Hfield. reflexivity.
Qed.

Lemma parseArEntry_name_witness :
  parseArEntry entryFields line_debian_binary
  = OK {| Name := str "debian-binary"; Timestamp := 1342943816; OwnerID := 0;
          GroupID := 0; FileMode := str "100644"; Size := 4; Data := None |}
  /\ str "debian-binary"
     = strip_trailing_slash (trim_whitespace (slice line_debian_binary 0 16)).
Proof.
  split; [vm_compute; reflexivity|].
  refine (proj1 (proj2 (parseArEntry_name entryFields line_debian_binary
            {| Name := str "debian-binary"; Timestamp := 1342943816;
               OwnerID := 0; GroupID := 0; FileMode := str "100644";
               Size := 4; Data := None |} _)) _).
  - vm_compute; reflexivity.
  - vm_compute. repeat constructor.
Defined.

(** ** The numeric fields (C6) *)

(** C6 does not hold as stated: the loop returns at the first malformed
    field it visits, and the order of the visit is that of a map.  With
    both the timestamp and the size malformed, the error names [Timestamp]
    when the timestamp is visited first, although the size field is
    non-empty and fails decimal parsing too, and it names [Size] when the
    keys are visited in the opposite order. *)
Lemma parseArEntry_names_first_malformed_only :
  iteration_order entryFields /\ iteration_order (rev entryFields)
  /\ malformed line_two_malformed toTimestamp
       (NumError "Atoi" (str "12x") ErrSyntax)
  /\ malformed line_two_malformed toSize
       (NumError "Atoi" (str "3y") ErrSyntax)
  /\ parseArEntry entryFields line_two_malformed
     = Err (ErrorfParse "Timestamp" (NumError "Atoi" (str "12x") ErrSyntax))
  /\ parseArEntry (rev entryFields) line_two_malformed
     = Err (ErrorfParse "Size" (NumError "Atoi" (str "3y") ErrSyntax))
  /\ entryField_Name toTimestamp <> entryField_Name toSize.
Proof.
  split; [apply Permutation_refl|].
  split; [apply Permutation_sym, Permutation_rev|].
  split; [split; [vm_compute; discriminate | vm_compute; reflexivity]|].
  split; [split; [vm_compute; discriminate | vm_compute; reflexivity]|].
  split; [vm_compute; reflexivity|].
  split; [vm_compute; reflexivity|].
  vm_compute; discriminate.
Qed.

Lemma field_decode_cases (line : bytes) (t : entryField) :
  blank line t
  \/ (exists v, field_decode line t = OK (Some v)
                /\ ~ blank line t
                /\ strconv.Atoi (strings.TrimSpace (entryField_value line t))
                   = (v, None))
  \/ (exists err, malformed line t err).
Proof.
  destruct (field_decode line t) as [[v|]|err] eqn:Hd.
  - right; left. exists v. split; [reflexivity|]. split.
    + intros Hb. apply blank_decode in Hb. congruence.
    + unfold field_decode, toDecimal in Hd.
      destruct (bytes_eqb _ []); [discriminate|].
      destruct (strconv.Atoi _) as [out [err|]]; [discriminate|].
      injection Hd as ->. reflexivity.
  - left. apply blank_decode. exact Hd.
  - right; right. exists err. apply malformed_decode. exact Hd.
Qed.

(** C6, amended.  For a line of 60 bytes that passes the terminator test,
    in every iteration order and for each numeric field: the text of the
    field is what [strings.TrimSpace] leaves of its bytes (on ASCII bytes,
    the field without its leading and trailing whitespace); a field whose
    text is empty is 0 in the decoded entry and a field whose text
    [strconv.Atoi] accepts is that number; a line with no malformed field
    decodes; and if the field is malformed the decode fails with a
    [FormatError] that names a malformed field and wraps its parse error:
    the first malformed field in the iteration order, which is the field
    itself when no other field is malformed. *)
Theorem parseArEntry_numeric_fields (order : list entryField) (line : bytes)
    (target : entryField) :
  iteration_order order ->
  length line = 60%nat -> terminator_accepted line = true ->
  (Forall is_ascii (entryField_value line target) ->
   strings.TrimSpace (entryField_value line target)
   = trim_whitespace (entryField_value line target))
  /\ (forall e, parseArEntry order line = OK e ->
        (blank line target -> entryField_load target e = 0)
        /\ (~ blank line target ->
            strconv.Atoi (strings.TrimSpace (entryField_value line target))
            = (entryField_load target e, None)))
  /\ ((forall t err, ~ malformed line t err) ->
      exists e, parseArEntry order line = OK e)
  /\ (forall err, malformed line target err ->
        exists target' err',
          parseArEntry order line
          = Err (ErrorfParse (entryField_Name target') err')
          /\ FormatError (ErrorfParse (entryField_Name target') err')
          /\ malformed line target' err'
          /\ ((forall t err'', malformed line t err'' -> t = target) ->
              target' = target /\ err' = err)).
Proof.
  intros Hord Hlen Hterm. split; [apply TrimSpace_ascii|].
  rewrite parseArEntry_unfold by assumption. split; [|split].
  - intros e He.
    apply parseArEntry_range_OK in He as (_ & _ & _ & Hall & Hin & _).
    pose proof (iteration_order_In order target Hord) as Ht.
    rewrite (Hin target Ht). unfold decoded. split.
    + intros Hb. apply blank_decode in Hb. rewrite Hb.
      destruct target; reflexivity.
    + intros Hnb.
      destruct (field_decode_cases line target)
        as [Hb | [(v & Hd & _ & Ha) | (err & Hm)]].
      * contradiction.
      * rewrite Hd. exact Ha.
      * apply malformed_decode in Hm.
        destruct (Hall target Ht) as [ov Hov]. congruence.
  - intros Hnone. apply parseArEntry_range_total. intros t _.
    destruct (field_decode line t) as [ov|err] eqn:Hd; eauto.
    apply malformed_decode in Hd. destruct (Hnone t err Hd).
  - intros err Hm. apply malformed_decode in Hm.
    destruct (parseArEntry_range_malformed order line target err
                (iteration_order_In order target Hord) Hm
                (initial_entry line)) as [err0 Herr].
    destruct (parseArEntry_range_Err order line _ _ Herr)
      as (before & target' & after & err' & _ & _ & Hd' & ->).
    exists target', err'. split; [exact Herr|]. split; [exact I|].
    split; [apply malformed_decode; exact Hd'|].
    intros Honly.
    assert (target' = target)
      by (apply (Honly target' err'), malformed_decode, Hd').
    subst target'. split; congruence.
Qed.

Lemma parseArEntry_numeric_fields_witness :
  (parseArEntry entryFields line_blank_numbers
   = OK {| Name := str "foo"; Timestamp := 0; OwnerID := 0; GroupID := 0;
           FileMode := str "100644"; Size := 0; Data := None |}
   /\ blank line_blank_numbers toSize)
  /\ (malformed line_malformed_size toSize
        (NumError "Atoi" (str "3y") ErrSyntax)
      /\ exists target' err',
          parseArEntry entryFields line_malformed_size
          = Err (ErrorfParse (entryField_Name target') err')
          /\ FormatError (ErrorfParse (entryField_Name target') err')
          /\ malformed line_malformed_size target' err'
          /\ ((forall t err'', malformed line_malformed_size t err'' ->
               t = toSize) ->
              target' = toSize
              /\ err' = NumError "Atoi" (str "3y") ErrSyntax)).
Proof.
  split.
  - split; [vm_compute; reflexivity | vm_compute; reflexivity].
  - assert (Hm : malformed line_malformed_size toSize
                   (NumError "Atoi" (str "3y") ErrSyntax)).
    { split; [vm_compute; discriminate | vm_compute; reflexivity]. }
    split; [exact Hm|].
    refine (proj2 (proj2 (proj2 (parseArEntry_numeric_fields entryFields
              line_malformed_size toSize _ _ _))) _ Hm).
    + apply Permutation_refl.
    + vm_compute; reflexivity.
    + vm_compute; reflexivity.
Defined.

(** ** Opening an archive (C8) *)

(** C8 does not hold as stated: on a source of four bytes the read that
    [checkAr] issues reports [io.EOF], and [LoadAr] returns that error as
    it is; it is the error of the byte source, the very value that signals
    the end of an archive, and not a [FormatError] of the package. *)
Lemma LoadAr_short_source_returns_EOF :
  io.ReadAt (bytes_.NewReader (str "!<ar")) 8 0 = (str "!<ar", Some io_EOF)
  /\ LoadAr (bytes_.NewReader (str "!<ar")) = Err io_EOF
  /\ ~ FormatError io_EOF.
Proof.
  split; [reflexivity|]. split; [reflexivity|]. intros H. exact H.
Qed.

Lemma buffer_is_magic (got : bytes) :
  (length got <= 8)%nat -> buffer 8 got = magic -> got = magic.
Proof.
  intros Hlen H.
  destruct (Nat.eq_dec (length got) 8) as [E|E].
  - rewrite buffer_full in H by assumption. exact H.
  - exfalso. unfold buffer, magic in H.
    do 8 (destruct got as [|? got]; [discriminate H|]).
    simpl in Hlen, E. destruct got; simpl in *; [congruence | lia].
Qed.

(** C8, amended.  [LoadAr] issues one read of 8 bytes at offset 0.  If the
    read reports an error, [LoadAr] fails with that error, unchanged; a
    byte source that keeps the contract of [io.ReaderAt] reports one
    whenever fewer than 8 bytes are available.  If the read reports no
    error, [LoadAr] returns a cursor on the source at offset 8 when the
    bytes are the magic, and fails with a [FormatError] when they are not.
    A cursor is returned in no other case. *)
Theorem LoadAr_cases (r : io.ReaderAt) :
  (forall e, snd (io.ReadAt r 8 0) = Some e -> LoadAr r = Err e)
  /\ (snd (io.ReadAt r 8 0) = None -> fst (io.ReadAt r 8 0) = magic ->
      LoadAr r = OK {| in_ := r; offset := 8 |})
  /\ (snd (io.ReadAt r 8 0) = None ->
      (length (fst (io.ReadAt r 8 0)) <= 8)%nat ->
      fst (io.ReadAt r 8 0) <> magic ->
      LoadAr r = Err (Errorf "Header doesn't look right!")
      /\ FormatError (Errorf "Header doesn't look right!"))
  /\ (io.conforming r -> (length (fst (io.ReadAt r 8 0)) < 8)%nat ->
      exists e, snd (io.ReadAt r 8 0) = Some e /\ LoadAr r = Err e)
  /\ (forall d, LoadAr r = OK d ->
      snd (io.ReadAt r 8 0) = None
      /\ buffer 8 (fst (io.ReadAt r 8 0)) = magic
      /\ d = {| in_ := r; offset := 8 |}).
Proof.
  unfold LoadAr, checkAr.
  destruct (io.ReadAt r 8 0) as [got err] eqn:Hread. cbn [fst snd].
  split; [|split; [|split; [|split]]].
  - intros e ->. reflexivity.
  - intros -> ->. reflexivity.
  - intros -> Hlen Hne.
    destruct (bytes_eqb (buffer 8 got) magic) eqn:E.
    + apply bytes_eqb_eq, buffer_is_magic in E; [contradiction | assumption].
    + split; [reflexivity | exact I].
  - intros Hc Hshort. destruct (Hc 8%nat 0) as [_ Herr].
    rewrite Hread in Herr. cbn [fst snd] in Herr. specialize (Herr Hshort).
    destruct err as [e|]; [|congruence]. exists e. auto.
  - intros d Hd. destruct err as [e|]; [discriminate|].
    destruct (bytes_eqb (buffer 8 got) magic) eqn:E; [|discriminate].
    apply bytes_eqb_eq in E. cbn [negb] in Hd.
    assert (Hl : length (buffer 8 got) = 8%nat) by (rewrite E; reflexivity).
    rewrite Hl in Hd. injection Hd as <-. auto.
Qed.

Lemma LoadAr_cases_witness :
  snd (io.ReadAt (bytes_.NewReader (archive_foo_baz x0a [])) 8 0) = None
  /\ fst (io.ReadAt (bytes_.NewReader (archive_foo_baz x0a [])) 8 0) = magic
  /\ LoadAr (bytes_.NewReader (archive_foo_baz x0a []))
     = OK (cursor_at (archive_foo_baz x0a []) 8).
Proof.
  split; [reflexivity|]. split; [reflexivity|].
  refine (proj1 (proj2 (LoadAr_cases
            (bytes_.NewReader (archive_foo_baz x0a [])))) _ _);
    reflexivity.
Defined.

(** ** The round trip (C9) *)

(** What a successful call of [Next] returns, given what the read and the
    decoder return. *)
Lemma Next_OK_intro (order : list entryField) (d : Ar) (line : bytes)
    (entry : ArEntry) :
  io.ReadAt (in_ d) 60 (offset d) = (line, None) ->
  length line = 60%nat ->
  parseArEntry order line = OK entry ->
  Next order d
  = ({| in_ := in_ d;
        offset := wrap64 (offset d + 60 + Size entry + rem64 (Size entry) 2) |},
     OK (mkArEntry (Name entry) (Timestamp entry) (OwnerID entry)
           (GroupID entry) (FileMode entry) (Size entry)
           (Some (io.NewSectionReader (in_ d) (wrap64 (offset d + 60))
                    (Size entry))))).
Proof.
  intros Hread Hlen Hparse. unfold Next. rewrite Hread, Hlen.
  cbn [Nat.eqb andb negb]. rewrite (buffer_full 60 line Hlen), Hparse.
  change (Z.of_nat 60) with 60. rewrite Next_offset_arith. reflexivity.
Qed.

Lemma parseArEntry_line_foo (order : list entryField) :
  iteration_order order ->
  parseArEntry order line_foo
  = OK {| Name := str "foo"; Timestamp := 1342943816; OwnerID := 501;
          GroupID := 20; FileMode := str "100644"; Size := 3; Data := None |}.
Proof.
  intros Hord. rewrite (parseArEntry_OK_intro order line_foo Hord).
  - reflexivity.
  - reflexivity.
  - reflexivity.
  - apply all_fields; eexists; vm_compute; reflexivity.
Qed.

Lemma parseArEntry_line_baz (order : list entryField) :
  iteration_order order ->
  parseArEntry order line_baz
  = OK {| Name := str "baz"; Timestamp := 1342943816; OwnerID := 501;
          GroupID := 20; FileMode := str "100644"; Size := 0; Data := None |}.
Proof.
  intros Hord. rewrite (parseArEntry_OK_intro order line_baz Hord).
  - reflexivity.
  - reflexivity.
  - reflexivity.
  - apply all_fields; eexists; vm_compute; reflexivity.
Qed.

(** C9: on the archive made of the magic, the header of [foo] with size 3,
    the data [bar] and one pad byte, and the header of [baz] with size 0,
    followed by nothing or by one blank line, [LoadAr] returns a cursor at
    offset 8; the first call of [Next] returns the member [foo] of size 3
    and moves the cursor to 72, the second returns the member [baz] of size
    0 and moves it to 132, and the third returns [io.EOF] and leaves the
    cursor where it is, whatever the pad byte and the iteration orders. *)
Theorem Next_round_trip_foo_baz (pad : byte) (trailer : bytes)
    (o1 o2 o3 : list entryField) :
  iteration_order o1 -> iteration_order o2 ->
  trailer = [] \/ trailer = [x0a] ->
  LoadAr (bytes_.NewReader (archive_foo_baz pad trailer))
  = OK (cursor_at (archive_foo_baz pad trailer) 8)
  /\ Next o1 (cursor_at (archive_foo_baz pad trailer) 8)
     = (cursor_at (archive_foo_baz pad trailer) 72,
        OK (member_foo (archive_foo_baz pad trailer)))
  /\ Next o2 (cursor_at (archive_foo_baz pad trailer) 72)
     = (cursor_at (archive_foo_baz pad trailer) 132,
        OK (member_baz (archive_foo_baz pad trailer)))
  /\ Next o3 (cursor_at (archive_foo_baz pad trailer) 132)
     = (cursor_at (archive_foo_baz pad trailer) 132, Err io_EOF)
  /\ EndOfArchive io_EOF.
Proof.
  intros H1 H2 Htr.
  pose proof (parseArEntry_line_foo o1 H1) as Hfoo.
  pose proof (parseArEntry_line_baz o2 H2) as Hbaz.
  destruct Htr as [-> | ->].
  - split; [reflexivity|].
    split; [exact (Next_OK_intro o1 (cursor_at (archive_foo_baz pad []) 8)
                     line_foo _ eq_refl eq_refl Hfoo)|].
    split; [exact (Next_OK_intro o2 (cursor_at (archive_foo_baz pad []) 72)
                     line_baz _ eq_refl eq_refl Hbaz)|].
    split; reflexivity.
  - split; [reflexivity|].
    split; [exact (Next_OK_intro o1 (cursor_at (archive_foo_baz pad [x0a]) 8)
                     line_foo _ eq_refl eq_refl Hfoo)|].
    split; [exact (Next_OK_intro o2 (cursor_at (archive_foo_baz pad [x0a]) 72)
                     line_baz _ eq_refl eq_refl Hbaz)|].
    split; reflexivity.
Qed.

Lemma Next_round_trip_foo_baz_witness :
  iteration_order entryFields
  /\ Next entryFields (cursor_at (archive_foo_baz x0a [x0a]) 8)
     = (cursor_at (archive_foo_baz x0a [x0a]) 72,
        OK (member_foo (archive_foo_baz x0a [x0a])))
  /\ Next entryFields (cursor_at (archive_foo_baz x0a [x0a]) 132)
     = (cursor_at (archive_foo_baz x0a [x0a]) 132, Err io_EOF).
Proof.
  split; [apply Permutation_refl|].
  pose proof (Next_round_trip_foo_baz x0a [x0a] entryFields entryFields
                entryFields (Permutation_refl _) (Permutation_refl _)
                (or_intror eq_refl)) as (_ & Hfoo & _ & Heof & _).
  split; [exact Hfoo | exact Heof].
Defined.

(** * Further properties of the decoder and the cursor *)

(** ** [toDecimal] on short texts *)

Lemma toDecimal_Atoi (s : bytes) : toDecimal s = strconv.Atoi s.
Proof. unfold toDecimal. destruct (strconv.Atoi s); reflexivity. Qed.

Lemma digit_test (c : byte) :
  (9 <? (byteZ c - byteZ "0") mod 256) = negb (is_digit c).
Proof. destruct c; reflexivity. Qed.

Lemma digit_value (c : byte) :
  is_digit c = true -> 0 <= (byteZ c - byteZ "0") mod 256 <= 9.
Proof. destruct c; intros H; try discriminate H; vm_compute; split; discriminate. Qed.

Lemma atoiDigits_accepts (s : bytes) :
  forall n, (exists m, strconv.atoiDigits s n = Some m)
            <-> forallb is_digit s = true.
Proof.
  induction s as [|c rest IH]; intros n; simpl.
  - split; eauto.
  - rewrite digit_test. destruct (is_digit c); simpl.
    + apply IH.
    + split; [intros [m H]; discriminate | discriminate].
Qed.

Lemma atoiDigits_bound (s : bytes) :
  forall n m, strconv.atoiDigits s n = Some m -> 0 <= n ->
    n * 10 ^ Z.of_nat (length s) <= m < (n + 1) * 10 ^ Z.of_nat (length s).
Proof.
  induction s as [|c rest IH]; intros n m H Hn.
  - simpl in H. injection H as <-. simpl. lia.
  - cbn [strconv.atoiDigits] in H. rewrite digit_test in H.
    destruct (is_digit c) eqn:Hc; [|discriminate]. cbn [negb] in H.
    pose proof (digit_value c Hc) as Hd.
    apply IH in H; [|lia].
    cbn [length]. rewrite Nat2Z.inj_succ, Z.pow_succ_r by lia.
    assert (0 < 10 ^ Z.of_nat (length rest)) by (apply Z.pow_pos_nonneg; lia).
    nia.
Qed.

(** The fast path of [Atoi], which a text of 1 to 18 bytes takes. *)
Lemma Atoi_short (c : byte) (rest : bytes) :
  (length (c :: rest) < 19)%nat ->
  strconv.Atoi (c :: rest) =
  let signed := Byte.eqb c "-" || Byte.eqb c "+" in
  let digits := if signed then rest else c :: rest in
  if signed && (length digits <? 1)%nat then
    (0, Some (NumError "Atoi" (c :: rest) ErrSyntax))
  else
    match strconv.atoiDigits digits 0 with
    | None => (0, Some (NumError "Atoi" (c :: rest) ErrSyntax))
    | Some n => ((if Byte.eqb c "-" then - n else n), None)
    end.
Proof.
  intros Hlen. unfold strconv.Atoi.
  replace ((0 <? length (c :: rest))%nat && (length (c :: rest) <? 19)%nat)
    with true.
  - reflexivity.
  - symmetry. apply andb_true_iff. split.
    + reflexivity.
    + apply Nat.ltb_lt. exact Hlen.
Qed.

Lemma Atoi_empty : strconv.Atoi [] = (0, Some (NumError "Atoi" [] ErrSyntax)).
Proof. reflexivity. Qed.

Lemma Atoi_digits_cases (s digits : bytes) (neg : bool) :
  (length digits <= length s)%nat ->
  (forallb is_digit digits = true
   /\ exists v,
       match strconv.atoiDigits digits 0 with
       | None => (0, Some (NumError "Atoi" s ErrSyntax))
       | Some n => ((if neg then - n else n), None)
       end = (v, None)
       /\ - 10 ^ Z.of_nat (length s) < v < 10 ^ Z.of_nat (length s))
  \/ (forallb is_digit digits = false
      /\ match strconv.atoiDigits digits 0 with
         | None => (0, Some (NumError "Atoi" s ErrSyntax))
         | Some n => ((if neg then - n else n), None)
         end = (0, Some (NumError "Atoi" s ErrSyntax))).
Proof.
  intros Hle. destruct (strconv.atoiDigits digits 0) as [n|] eqn:Hd.
  - left. split; [apply (atoiDigits_accepts digits 0); eauto|].
    eexists. split; [reflexivity|].
    apply atoiDigits_bound in Hd; [|lia].
    assert (10 ^ Z.of_nat (length digits) <= 10 ^ Z.of_nat (length s))
      by (apply Z.pow_le_mono_r; lia).
    destruct neg; lia.
  - right. split; [|reflexivity].
    destruct (forallb is_digit digits) eqn:Hf; [|reflexivity].
    apply (atoiDigits_accepts digits 0) in Hf as [m Hm]. congruence.
Qed.

Lemma Atoi_short_cases (s : bytes) :
  (length s < 19)%nat ->
  (decimal_text s = true /\ exists v, strconv.Atoi s = (v, None)
      /\ - 10 ^ Z.of_nat (length s) < v < 10 ^ Z.of_nat (length s))
  \/ (decimal_text s = false
      /\ strconv.Atoi s = (0, Some (NumError "Atoi" s ErrSyntax))).
Proof.
  intros Hlen. destruct s as [|c rest].
  - right. split; reflexivity.
  - rewrite (Atoi_short c rest Hlen). unfold decimal_text. cbn zeta.
    destruct (Byte.eqb c "-" || Byte.eqb c "+"); cbn [andb].
    + destruct rest as [|c' rest'].
      * right. split; reflexivity.
      * change (length (c' :: rest') <? 1)%nat with false. cbn iota.
        apply Atoi_digits_cases. simpl; lia.
    + apply Atoi_digits_cases. lia.
Qed.

(** X3.  On a text of fewer than 19 bytes, [toDecimal] succeeds exactly
    when the text is an optional sign followed by one or more ASCII digits;
    the number it returns is below 10 to the power of the length of the
    text in absolute value; and when it fails it returns 0 and the syntax
    error of [Atoi] on that text, never a range error. *)
Theorem toDecimal_short_text (s : bytes) :
  (length s < 19)%nat ->
  (snd (toDecimal s) = None <-> decimal_text s = true)
  /\ (forall v, toDecimal s = (v, None) ->
        - 10 ^ Z.of_nat (length s) < v < 10 ^ Z.of_nat (length s))
  /\ (forall v err, toDecimal s = (v, Some err) ->
        v = 0 /\ err = NumError "Atoi" s ErrSyntax).
Proof.
  intros Hlen. rewrite toDecimal_Atoi.
  destruct (Atoi_short_cases s Hlen) as [(Hd & v & Ha & Hv) | (Hd & Ha)];
    rewrite Ha, Hd; cbn [snd].
  - split; [split; reflexivity|]. split.
    + intros w Hw. injection Hw as <-. exact Hv.
    + intros w err Hw. discriminate.
  - split; [split; discriminate|]. split.
    + intros w Hw. discriminate.
    + intros w err Hw. injection Hw as <- <-. split; reflexivity.
Qed.

Lemma toDecimal_short_text_witness :
  (length (str "+0042") < 19)%nat
  /\ toDecimal (str "+0042") = (42, None)
  /\ - 10 ^ Z.of_nat (length (str "+0042")) < 42
     < 10 ^ Z.of_nat (length (str "+0042")).
Proof.
  assert (Hlen : (length (str "+0042") < 19)%nat) by (vm_compute; lia).
  split; [exact Hlen|]. split; [reflexivity|].
  exact (proj1 (proj2 (toDecimal_short_text (str "+0042") Hlen)) 42 eq_refl).
Defined.

(** ** The length of a trimmed text *)

Lemma slice_length (s : bytes) (lo hi : nat) :
  (length (slice s lo hi) <= hi - lo)%nat.
Proof. unfold slice. rewrite length_firstn. lia. Qed.

Lemma slice_length_source (s : bytes) (lo hi : nat) :
  (length (slice s lo hi) <= length s)%nat.
Proof. unfold slice. rewrite length_firstn, length_skipn. lia. Qed.

Lemma trimLeftSpace_length (fuel : nat) :
  forall s, (length (strings.trimLeftSpace fuel s) <= length s)%nat.
Proof.
  induction fuel as [|k IH]; intros s; simpl; [lia|].
  destruct s as [|c s']; [simpl; lia|].
  destruct (utf8.DecodeRuneInString (c :: s')) as [r size].
  destruct (unicode.IsSpace r); [|lia].
  etransitivity; [apply IH|]. rewrite length_skipn. lia.
Qed.

Lemma TrimRightFunc_length (s : bytes) :
  (length (strings.TrimRightFunc_IsSpace s) <= length s)%nat.
Proof. unfold strings.TrimRightFunc_IsSpace. apply slice_length_source. Qed.

Lemma trimSpaceStop_length (r : bytes) :
  (length (strings.trimSpaceStop r) <= length r)%nat.
Proof.
  induction r as [|c r' IH]; [simpl; lia|].
  cbn [strings.trimSpaceStop].
  destruct (utf8.RuneSelf <=? byteZ c).
  - etransitivity; [apply TrimRightFunc_length|]. rewrite length_rev. lia.
  - destruct (strings.asciiSpace c).
    + simpl. lia.
    + rewrite length_rev. lia.
Qed.

(** [strings.TrimSpace] returns a text no longer than its argument. *)
Lemma TrimSpace_length (s : bytes) :
  (length (strings.TrimSpace s) <= length s)%nat.
Proof.
  induction s as [|c s' IH]; [simpl; lia|].
  cbn [strings.TrimSpace].
  destruct (utf8.RuneSelf <=? byteZ c).
  - unfold strings.TrimFunc_IsSpace, strings.TrimLeftFunc_IsSpace.
    etransitivity; [apply TrimRightFunc_length|]. apply trimLeftSpace_length.
  - destruct (strings.asciiSpace c).
    + simpl. lia.
    + etransitivity; [apply trimSpaceStop_length|]. rewrite length_rev. lia.
Qed.

Lemma TrimSuffix_length (s suffix : bytes) :
  (length (strings.TrimSuffix s suffix) <= length s)%nat.
Proof.
  unfold strings.TrimSuffix. destruct (strings.HasSuffix s suffix); [|lia].
  rewrite length_firstn. lia.
Qed.

Lemma field_text_length (line : bytes) (t : entryField) :
  (length (field_text line t) <= entryField_width t)%nat.
Proof.
  unfold field_text. etransitivity; [apply TrimSpace_length|].
  destruct t; apply slice_length.
Qed.

Lemma field_text_short (line : bytes) (t : entryField) :
  (length (field_text line t) < 19)%nat.
Proof.
  pose proof (field_text_length line t). destruct t; simpl in *; lia.
Qed.

(** ** A numeric field, by its text *)

Lemma field_decode_by_text (line : bytes) (t : entryField) :
  (field_text line t = [] /\ field_decode line t = OK None)
  \/ (field_text line t <> [] /\ decimal_text (field_text line t) = true
      /\ exists v, field_decode line t = OK (Some v)
           /\ - 10 ^ Z.of_nat (entryField_width t) < v
              < 10 ^ Z.of_nat (entryField_width t))
  \/ (field_text line t <> [] /\ decimal_text (field_text line t) = false
      /\ field_decode line t
         = Err (NumError "Atoi" (field_text line t) ErrSyntax)).
Proof.
  unfold field_decode. fold (field_text line t).
  destruct (bytes_eqb (field_text line t) []) eqn:E.
  - left. apply bytes_eqb_nil in E. auto.
  - right.
    assert (Hne : field_text line t <> []).
    { intros H. apply bytes_eqb_nil in H. congruence. }
    rewrite toDecimal_Atoi.
    destruct (Atoi_short_cases _ (field_text_short line t))
      as [(Hd & v & Ha & Hv) | (Hd & Ha)]; rewrite Ha.
    + left. repeat split; auto. exists v. split; [reflexivity|].
      assert (10 ^ Z.of_nat (length (field_text line t))
              <= 10 ^ Z.of_nat (entryField_width t)).
      { apply Z.pow_le_mono_r; [lia|].
        apply Nat2Z.inj_le, field_text_length. }
      lia.
    + right. auto.
Qed.

Lemma field_accepted_decode (line : bytes) (t : entryField) :
  field_accepted line t <-> exists ov, field_decode line t = OK ov.
Proof.
  unfold field_accepted.
  destruct (field_decode_by_text line t)
    as [(Hb & Hd) | [(Hne & Hdt & v & Hd & _) | (Hne & Hdt & Hd)]];
    rewrite Hd.
  - split; eauto.
  - split; eauto.
  - split.
    + intros [H|H]; congruence.
    + intros [ov H]. discriminate.
Qed.

(** ** Which lines the decoder accepts *)

(** X5.  In every iteration order, [parseArEntry] returns an entry exactly
    when the line has 60 bytes, one of the two terminator bytes is right,
    and each of the four numeric fields, trimmed, is empty or an optional
    sign followed by one or more ASCII digits.  The bytes of the name and
    of the file mode play no part. *)
Theorem parseArEntry_succeeds_iff (order : list entryField) (line : bytes) :
  iteration_order order ->
  (exists e, parseArEntry order line = OK e)
  <-> length line = 60%nat
      /\ (at_ line 58 = x60 \/ at_ line 59 = x0a)
      /\ forall t, field_accepted line t.
Proof.
  intros Hord. split.
  - intros [e He]. apply parseArEntry_OK_inv in He as (Hlen & Hterm & He).
    split; [exact Hlen|]. split; [apply terminator_accepted_iff, Hterm|].
    apply parseArEntry_range_OK in He as (_ & _ & _ & Hall & _).
    intros t. apply field_accepted_decode, Hall.
    apply iteration_order_In, Hord.
  - intros (Hlen & Hterm & Hall).
    apply terminator_accepted_iff in Hterm.
    rewrite parseArEntry_unfold by assumption.
    apply parseArEntry_range_total. intros t _.
    apply field_accepted_decode, Hall.
Qed.

Lemma parseArEntry_succeeds_iff_witness :
  iteration_order entryFields
  /\ (exists e, parseArEntry entryFields line_blank_numbers = OK e)
  /\ length line_blank_numbers = 60%nat.
Proof.
  split; [apply Permutation_refl|].
  split; [eexists; vm_compute; reflexivity|].
  refine (proj1 (proj1 (parseArEntry_succeeds_iff entryFields
                          line_blank_numbers _) _)).
  - apply Permutation_refl.
  - eexists; vm_compute; reflexivity.
Defined.

(** ** The errors of the decoder *)

Lemma parseArEntry_Err_cases (order : list entryField) (line : bytes)
    (err : error) :
  parseArEntry order line = Err err ->
  (length line <> 60%nat
   /\ err = Errorf "Malformed file entry line length")
  \/ (length line = 60%nat /\ at_ line 58 <> x60 /\ at_ line 59 <> x0a
      /\ err = Errorf "Malformed file entry line endings")
  \/ (length line = 60%nat /\ (at_ line 58 = x60 \/ at_ line 59 = x0a)
      /\ exists t,
          In t order /\ field_text line t <> []
          /\ decimal_text (field_text line t) = false
          /\ err = ErrorfParse (entryField_Name t)
                     (NumError "Atoi" (field_text line t) ErrSyntax)).
Proof.
  intros H. unfold parseArEntry in H.
  destruct (length line =? 60)%nat eqn:Hlen; cbn [negb] in H.
  - apply Nat.eqb_eq in Hlen. right.
    destruct (terminator_accepted line) eqn:Hterm.
    + right. split; [exact Hlen|].
      split; [apply terminator_accepted_iff, Hterm|].
      unfold terminator_accepted in Hterm. apply negb_true_iff in Hterm.
      rewrite Hterm in H.
      apply parseArEntry_range_Err in H
        as (before & t & after & err' & Ho & _ & Hd & ->).
      exists t. split; [rewrite Ho; apply in_elt|].
      destruct (field_decode_by_text line t)
        as [(_ & Hd') | [(_ & _ & v & Hd' & _) | (Hne & Hdt & Hd')]];
        try congruence.
      repeat split; auto. congruence.
    + left. split; [exact Hlen|].
      assert (Hno : ~ (at_ line 58 = x60 \/ at_ line 59 = x0a)).
      { intros Hy. apply terminator_accepted_iff in Hy. congruence. }
      unfold terminator_accepted in Hterm. apply negb_false_iff in Hterm.
      rewrite Hterm in H. injection H as <-.
      repeat split; auto.
  - left. apply Nat.eqb_neq in Hlen. injection H as <-. auto.
Qed.

Lemma parseArEntry_Err_FormatError (order : list entryField) (line : bytes)
    (err : error) :
  parseArEntry order line = Err err -> FormatError err /\ err <> io_EOF.
Proof.
  intros H.
  destruct (parseArEntry_Err_cases order line err H)
    as [(_ & ->) | [(_ & _ & _ & ->) | (_ & _ & t & _ & _ & _ & ->)]];
    split; try exact I; discriminate.
Qed.

(** X2.  Every error of [parseArEntry] is one of three: the line-length
    error, exactly when the line does not have 60 bytes; the line-endings
    error, when it has 60 bytes and both terminator bytes are wrong,
    whatever the numeric fields hold; or, when the terminator test passes,
    the parse error of a visited numeric field whose text is non-empty and
    is not a signed run of digits, which wraps the syntax error of [Atoi]
    on that text and never a range error.  In particular the decoder
    returns [FormatError]s only, never [io.EOF]. *)
Theorem parseArEntry_errors (order : list entryField) (line : bytes)
    (err : error) :
  parseArEntry order line = Err err ->
  ((length line <> 60%nat
    /\ err = Errorf "Malformed file entry line length")
   \/ (length line = 60%nat /\ at_ line 58 <> x60 /\ at_ line 59 <> x0a
       /\ err = Errorf "Malformed file entry line endings")
   \/ (length line = 60%nat /\ (at_ line 58 = x60 \/ at_ line 59 = x0a)
       /\ exists t,
           In t order /\ field_text line t <> []
           /\ decimal_text (field_text line t) = false
           /\ err = ErrorfParse (entryField_Name t)
                      (NumError "Atoi" (field_text line t) ErrSyntax)))
  /\ FormatError err /\ err <> io_EOF.
Proof.
  intros H. split.
  - apply parseArEntry_Err_cases. exact H.
  - apply (parseArEntry_Err_FormatError order line). exact H.
Qed.

Lemma parseArEntry_errors_witness :
  parseArEntry entryFields line_malformed_size
  = Err (ErrorfParse "Size" (NumError "Atoi" (str "3y") ErrSyntax))
  /\ FormatError (ErrorfParse "Size" (NumError "Atoi" (str "3y") ErrSyntax)).
Proof.
  split; [vm_compute; reflexivity|].
  refine (proj1 (proj2 (parseArEntry_errors entryFields line_malformed_size
                          _ _))).
  vm_compute; reflexivity.
Defined.

(** ** The size of what the decoder returns *)

Lemma parseArEntry_number_bound (order : list entryField) (line : bytes)
    (e : ArEntry) (t : entryField) :
  parseArEntry order line = OK e ->
  - 10 ^ Z.of_nat (entryField_width t) < entryField_load t e
  < 10 ^ Z.of_nat (entryField_width t).
Proof.
  intros H. apply parseArEntry_OK_inv in H as (_ & _ & H).
  apply parseArEntry_range_OK in H as (_ & _ & _ & _ & Hin & Hout).
  assert (Hz : - 10 ^ Z.of_nat (entryField_width t) < 0
               < 10 ^ Z.of_nat (entryField_width t)).
  { assert (0 < 10 ^ Z.of_nat (entryField_width t))
      by (apply Z.pow_pos_nonneg; lia). lia. }
  destruct (in_dec entryField_eq_dec t order) as [Ht|Ht].
  - rewrite (Hin t Ht). unfold decoded.
    destruct (field_decode_by_text line t)
      as [(_ & Hd) | [(_ & _ & v & Hd & Hv) | (_ & _ & Hd)]]; rewrite Hd.
    + destruct t; exact Hz.
    + exact Hv.
    + destruct t; exact Hz.
  - rewrite (Hout t Ht). destruct t; exact Hz.
Qed.

Lemma parseArEntry_Size_bound (order : list entryField) (line : bytes)
    (e : ArEntry) :
  parseArEntry order line = OK e -> - 10 ^ 10 < Size e < 10 ^ 10.
Proof. exact (parseArEntry_number_bound order line e toSize). Qed.

(** X4.  In an entry that [parseArEntry] returns, each number has at most
    as many decimal digits as its field is wide: the timestamp is below
    10^12 in absolute value, the owner and the group below 10^6 and the
    size below 10^10, so all of them lie well inside [int64]; the name has
    at most 16 bytes and the file mode at most 8. *)
Theorem parseArEntry_bounds (order : list entryField) (line : bytes)
    (e : ArEntry) :
  parseArEntry order line = OK e ->
  (forall t, - 10 ^ Z.of_nat (entryField_width t) < entryField_load t e
             < 10 ^ Z.of_nat (entryField_width t))
  /\ - 10 ^ 12 < Timestamp e < 10 ^ 12
  /\ - 10 ^ 6 < OwnerID e < 10 ^ 6
  /\ - 10 ^ 6 < GroupID e < 10 ^ 6
  /\ - 10 ^ 10 < Size e < 10 ^ 10
  /\ (length (Name e) <= 16)%nat
  /\ (length (FileMode e) <= 8)%nat.
Proof.
  intros H.
  pose proof (fun t => parseArEntry_number_bound order line e t H) as Hall.
  split; [exact Hall|].
  split; [exact (Hall toTimestamp)|]. split; [exact (Hall toOwnerID)|].
  split; [exact (Hall toGroupID)|]. split; [exact (Hall toSize)|].
  apply parseArEntry_OK_inv in H as (_ & _ & H).
  apply parseArEntry_range_OK in H as (Hn & Hm & _).
  rewrite Hn, Hm. cbn [Name FileMode initial_entry]. split.
  - etransitivity; [apply TrimSuffix_length|].
    etransitivity; [apply TrimSpace_length|]. apply (slice_length line 0 16).
  - etransitivity; [apply TrimSpace_length|]. apply (slice_length line 40 48).
Qed.

Lemma parseArEntry_bounds_witness :
  parseArEntry entryFields line_size_minus_100
  = OK {| Name := str "foo"; Timestamp := 1342943816; OwnerID := 501;
          GroupID := 20; FileMode := str "100644"; Size := -100;
          Data := None |}
  /\ - 10 ^ 10 < -100 < 10 ^ 10.
Proof.
  split; [vm_compute; reflexivity|].
  refine (proj1 (proj2 (proj2 (proj2 (proj2 (parseArEntry_bounds entryFields
            line_size_minus_100
            {| Name := str "foo"; Timestamp := 1342943816; OwnerID := 501;
               GroupID := 20; FileMode := str "100644"; Size := -100;
               Data := None |} _)))))).
  vm_compute; reflexivity.
Defined.

(** ** The iteration order of the map *)

Lemma parseArEntry_order_OK (o1 o2 : list entryField) (line : bytes)
    (e : ArEntry) :
  iteration_order o1 -> iteration_order o2 ->
  parseArEntry o1 line = OK e -> parseArEntry o2 line = OK e.
Proof.
  intros H1 H2 He. apply parseArEntry_OK_inv in He as (Hlen & Hterm & He).
  pose proof (parseArEntry_range_order o1 line _ e H1 He) as ->.
  apply parseArEntry_range_OK in He as (_ & _ & _ & Hall & _).
  apply parseArEntry_OK_intro; auto.
  intros t. apply Hall, iteration_order_In, H1.
Qed.

(** X1.  The order in which the map of [parseArEntry] is visited does not
    change what the decoder accepts nor the entry it returns: a line that
    decodes in one iteration order decodes to the same entry in every
    other, a line that fails in one fails in every other (possibly naming
    another field), and a call of [Next] that succeeds in one order
    returns the same member and leaves the same cursor in every other. *)
Theorem parseArEntry_order_independent (o1 o2 : list entryField) :
  iteration_order o1 -> iteration_order o2 ->
  (forall line e, parseArEntry o1 line = OK e -> parseArEntry o2 line = OK e)
  /\ (forall line err, parseArEntry o1 line = Err err ->
        exists err', parseArEntry o2 line = Err err')
  /\ (forall d d' e, Next o1 d = (d', OK e) -> Next o2 d = (d', OK e)).
Proof.
  intros H1 H2. split; [|split].
  - intros line e. apply parseArEntry_order_OK; assumption.
  - intros line err He.
    destruct (parseArEntry o2 line) as [e'|err'] eqn:H; eauto.
    apply (parseArEntry_order_OK o2 o1) in H; auto. congruence.
  - intros d d' e H.
    apply Next_OK_inv in H as (line & entry & Hread & Hlen & Hp & -> & ->).
    apply (parseArEntry_order_OK o1 o2) in Hp; auto.
    apply (Next_OK_intro o2 d line entry Hread Hlen Hp).
Qed.

Lemma parseArEntry_order_independent_witness :
  iteration_order entryFields /\ iteration_order (rev entryFields)
  /\ parseArEntry entryFields line_foo = parseArEntry (rev entryFields) line_foo.
Proof.
  assert (H1 : iteration_order entryFields) by apply Permutation_refl.
  assert (H2 : iteration_order (rev entryFields))
    by apply Permutation_sym, Permutation_rev.
  split; [exact H1|]. split; [exact H2|].
  rewrite (proj1 (parseArEntry_order_independent entryFields (rev entryFields)
                    H1 H2) line_foo _ (parseArEntry_line_foo entryFields H1)).
  apply parseArEntry_line_foo. exact H1.
Defined.

(** ** The cursor: alignment *)

Lemma wrap64_even (z : Z) : Z.even (wrap64 z) = Z.even z.
Proof.
  unfold wrap64.
  rewrite (Z.mod_eq (z + 2 ^ 63) (2 ^ 64)) by (vm_compute; discriminate).
  rewrite !Z.even_sub, Z.even_mul, Z.even_add.
  change (Z.even (2 ^ 63)) with true. change (Z.even (2 ^ 64)) with true.
  destruct (Z.even z); reflexivity.
Qed.

Lemma span_even (size : Z) : Z.even (60 + size + rem64 size 2) = true.
Proof.
  unfold rem64. rewrite Zquot.Zrem_odd, !Z.even_add.
  destruct size as [|[p|p|]|[p|p|]]; reflexivity.
Qed.

Lemma rem64_2_range (size : Z) : -1 <= rem64 size 2 <= 1.
Proof.
  unfold rem64. rewrite Zquot.Zrem_odd.
  destruct (Z.odd size); destruct size; simpl; lia.
Qed.

(** A call of [Next], whatever it returns, keeps the byte source of the
    cursor and the parity of its offset. *)
Lemma Next_keeps_parity (order : list entryField) (d d' : Ar)
    (res : result ArEntry) :
  Next order d = (d', res) ->
  in_ d' = in_ d /\ Z.even (offset d') = Z.even (offset d).
Proof.
  destruct res as [e|err]; intros H.
  - apply Next_OK_inv in H as (line & entry & _ & _ & _ & _ & ->).
    cbn [in_ offset]. split; [reflexivity|].
    rewrite wrap64_even.
    replace (offset d + 60 + Size entry + rem64 (Size entry) 2)
      with (offset d + (60 + Size entry + rem64 (Size entry) 2)) by ring.
    rewrite Z.even_add, span_even. destruct (Z.even (offset d)); reflexivity.
  - apply Next_Err_inv in H. subst d'. split; reflexivity.
Qed.

Lemma LoadAr_OK_inv (r : io.ReaderAt) (d : Ar) :
  LoadAr r = OK d -> d = {| in_ := r; offset := 8 |}.
Proof.
  unfold LoadAr, checkAr. destruct (io.ReadAt r 8 0) as [got err].
  destruct err as [e|]; [discriminate|].
  destruct (bytes_eqb (buffer 8 got) magic) eqn:E; [|discriminate].
  apply bytes_eqb_eq in E. cbn [negb]. rewrite E. intros H.
  injection H as <-. reflexivity.
Qed.

Lemma Advances_aligned (d : Ar) (tr : list (ArEntry * Ar)) :
  Advances d tr -> Z.even (offset d) = true ->
  Forall (fun p =>
            in_ (snd p) = in_ d
            /\ Z.even (offset (snd p)) = true
            /\ exists sr, Data (fst p) = Some sr
                          /\ io.sr_r sr = in_ d
                          /\ Z.even (io.sr_off sr) = true) tr.
Proof.
  induction 1 as [d|order d e d1 tr Hord Hnext Hadv IH]; intros Heven.
  - constructor.
  - destruct (Next_keeps_parity order d d1 (OK e) Hnext) as [Hin Hpar].
    rewrite Heven in Hpar.
    constructor.
    + cbn [fst snd]. split; [exact Hin|]. split; [exact Hpar|].
      apply Next_OK_inv in Hnext as (line & entry & _ & _ & _ & -> & _).
      eexists. split; [reflexivity|].
      unfold io.NewSectionReader. cbn [io.sr_r io.sr_off].
      split; [reflexivity|].
      rewrite wrap64_even, Z.even_add, Heven. reflexivity.
    + specialize (IH Hpar). rewrite Hin in IH. exact IH.
Qed.

(** X6.  Along every run of successful calls of [Next] on a cursor that
    [LoadAr] returned, the cursor keeps its byte source, every offset it
    takes is even and every data range it hands out belongs to that source
    and starts at an even offset: headers and data stay 2-byte aligned,
    whatever the sizes, negative ones and [int64] wrap-around included. *)
Theorem LoadAr_Advances_aligned (r : io.ReaderAt) (d : Ar)
    (tr : list (ArEntry * Ar)) :
  LoadAr r = OK d -> Advances d tr ->
  Z.even (offset d) = true
  /\ Forall (fun p =>
               in_ (snd p) = r
               /\ Z.even (offset (snd p)) = true
               /\ exists sr, Data (fst p) = Some sr
                             /\ io.sr_r sr = r
                             /\ Z.even (io.sr_off sr) = true) tr.
Proof.
  intros Hload Hadv. apply LoadAr_OK_inv in Hload. subst d.
  split; [reflexivity|].
  apply (Advances_aligned _ _ Hadv). reflexivity.
Qed.

Lemma LoadAr_Advances_aligned_witness :
  LoadAr (bytes_.NewReader (archive_foo_baz x0a []))
  = OK (cursor_at (archive_foo_baz x0a []) 8)
  /\ Forall (fun p => Z.even (offset (snd p)) = true)
       [(member_foo (archive_foo_baz x0a []),
         cursor_at (archive_foo_baz x0a []) 72);
        (member_baz (archive_foo_baz x0a []),
         cursor_at (archive_foo_baz x0a []) 132)].
Proof.
  split; [reflexivity|].
  assert (Hrun :
    Advances (cursor_at (archive_foo_baz x0a []) 8)
      [(member_foo (archive_foo_baz x0a []),
        cursor_at (archive_foo_baz x0a []) 72);
       (member_baz (archive_foo_baz x0a []),
        cursor_at (archive_foo_baz x0a []) 132)]).
  { apply (Advances_cons entryFields);
      [apply Permutation_refl | vm_compute; reflexivity |].
    apply (Advances_cons entryFields);
      [apply Permutation_refl | vm_compute; reflexivity |].
    apply Advances_nil. }
  pose proof (proj2 (LoadAr_Advances_aligned
                       (bytes_.NewReader (archive_foo_baz x0a []))
                       (cursor_at (archive_foo_baz x0a []) 8) _
                       eq_refl Hrun)) as H.
  eapply Forall_impl; [|exact H]. intros p (_ & Hp & _). exact Hp.
Defined.

(** ** The cursor: where its errors come from *)

Lemma NewReader_conforming (data : bytes) :
  io.conforming (bytes_.NewReader data).
Proof.
  intros n off. unfold bytes_.NewReader. cbn [io.ReadAt].
  destruct (off <? 0); [cbn [fst snd length]; split; [lia | discriminate]|].
  destruct (Z.of_nat (length data) <=? off);
    [cbn [fst snd length]; split; [lia | discriminate]|].
  cbn [fst snd]. split.
  - rewrite length_firstn. lia.
  - intros Hlt. apply Nat.ltb_lt in Hlt. rewrite Hlt. discriminate.
Qed.

(** X7.  On a byte source that keeps the contract of [io.ReaderAt] (never
    more bytes than asked, and an error whenever fewer), an error of
    [Next] is either the error the read reported, returned unchanged, or
    the error of [parseArEntry] on the 60 bytes read, a [FormatError]; the
    one-byte and short-read tests on the count decide nothing. *)
Theorem Next_errors_conforming (order : list entryField) (d d' : Ar)
    (err : error) :
  io.conforming (in_ d) ->
  Next order d = (d', Err err) ->
  snd (Next_read d) = Some err
  \/ exists line,
       Next_read d = (line, None) /\ length line = 60%nat
       /\ parseArEntry order line = Err err /\ FormatError err.
Proof.
  intros Hc H. destruct (Hc 60%nat (offset d)) as [Hle Hshort].
  unfold Next in H. unfold Next_read.
  destruct (io.ReadAt (in_ d) 60 (offset d)) as [got e0].
  cbn [fst snd] in *.
  destruct e0 as [e0|].
  - left. injection H as _ <-. reflexivity.
  - right.
    assert (Hlen : length got = 60%nat).
    { destruct (Nat.eq_dec (length got) 60) as [E|E]; [exact E|].
      exfalso. apply Hshort; [lia | reflexivity]. }
    rewrite Hlen in H. cbn [Nat.eqb andb negb] in H.
    rewrite (buffer_full 60 got Hlen) in H.
    destruct (parseArEntry order got) as [entry|e1] eqn:Hp; [discriminate|].
    injection H as _ <-. exists got. repeat split; auto.
    apply (parseArEntry_Err_FormatError order got e1 Hp).
Qed.

Lemma Next_errors_conforming_witness :
  io.conforming (in_ (cursor_at archive_truncated 8))
  /\ Next entryFields (cursor_at archive_truncated 8)
     = (cursor_at archive_truncated 8, Err io_EOF)
  /\ snd (Next_read (cursor_at archive_truncated 8)) = Some io_EOF.
Proof.
  split; [apply NewReader_conforming|]. split; [reflexivity|].
  destruct (Next_errors_conforming entryFields (cursor_at archive_truncated 8)
              (cursor_at archive_truncated 8) io_EOF
              (NewReader_conforming archive_truncated) eq_refl)
    as [H | (line & _ & _ & _ & [])].
  exact H.
Defined.

(** X8.  [Next] returns [io.EOF] only when the read reported [io.EOF] or
    when the read, without an error, returned the single byte [0x0A]; the
    header decoder is never its origin.  The cursor is then unchanged, and
    every further call, in whatever iteration order, returns [io.EOF]
    again. *)
Theorem Next_EOF (order : list entryField) (d d' : Ar) :
  Next order d = (d', Err io_EOF) ->
  d' = d
  /\ (snd (Next_read d) = Some io_EOF \/ Next_read d = ([x0a], None))
  /\ forall order', Next order' d' = (d', Err io_EOF).
Proof.
  intros H. pose proof (Next_Err_inv order d d' io_EOF H) as ->.
  split; [reflexivity|].
  unfold Next in *. unfold Next_read.
  destruct (io.ReadAt (in_ d) 60 (offset d)) as [got e0]. cbn [snd].
  destruct e0 as [e0|].
  - injection H as ->. split; [left; reflexivity | reflexivity].
  - destruct ((length got =? 1)%nat && Byte.eqb (at_ (buffer 60 got) 0) x0a)
      eqn:Hone.
    + split; [|reflexivity]. right. f_equal.
      apply andb_true_iff in Hone as [H1 Hb]. apply Nat.eqb_eq in H1.
      destruct got as [|c [|c' got']]; try discriminate.
      unfold buffer, at_ in Hb. simpl in Hb.
      apply Byte.byte_dec_bl in Hb. congruence.
    + exfalso. destruct (negb (length got =? 60)%nat); [discriminate|].
      destruct (parseArEntry order (buffer 60 got)) as [e|e1] eqn:Hp;
        [discriminate|].
      injection H as ->.
      destruct (parseArEntry_Err_FormatError order _ _ Hp) as [Hf _].
      exact Hf.
Qed.

Lemma Next_EOF_witness :
  Next entryFields (cursor_at (archive_foo_baz x0a [x0a]) 132)
  = (cursor_at (archive_foo_baz x0a [x0a]) 132, Err io_EOF)
  /\ Next (rev entryFields) (cursor_at (archive_foo_baz x0a [x0a]) 132)
     = (cursor_at (archive_foo_baz x0a [x0a]) 132, Err io_EOF).
Proof.
  split; [reflexivity|].
  exact (proj2 (proj2 (Next_EOF entryFields
                         (cursor_at (archive_foo_baz x0a [x0a]) 132)
                         (cursor_at (archive_foo_baz x0a [x0a]) 132)
                         eq_refl)) (rev entryFields)).
Defined.

(** ** The cursor: offsets without overflow *)

(** X10.  From an offset at least 10^10 + 61 away from both ends of
    [int64], a successful call of [Next] cannot overflow: the new offset
    is the old one plus [60 + size + size % 2] and the cursor has moved by
    more than -10^10 + 59 and by less than 10^10 + 61 bytes.  The data
    range of the member is on the byte source of the cursor and starts 60
    bytes after the old offset; for a size that is not negative it ends
    [size] bytes later and has length [size], and for a negative size
    [NewSectionReader] lets it run to [maxint64]. *)
Theorem Next_no_overflow (order : list entryField) (d d' : Ar) (e : ArEntry) :
  Next order d = (d', OK e) ->
  minInt64 + 10 ^ 10 + 61 <= offset d <= maxInt64 - 10 ^ 10 - 61 ->
  offset d' = offset d + 60 + Size e + rem64 (Size e) 2
  /\ (exists sr,
        Data e = Some sr /\ io.sr_r sr = in_ d
        /\ io.sr_base sr = offset d + 60
        /\ (0 <= Size e ->
            io.sr_limit sr = offset d + 60 + Size e /\ io.Size sr = Size e)
        /\ (Size e < 0 -> io.sr_limit sr = maxInt64))
  /\ offset d - 10 ^ 10 + 59 < offset d' < offset d + 10 ^ 10 + 61.
Proof.
  intros H Hoff.
  apply Next_OK_inv in H as (line & entry & _ & _ & Hp & -> & ->).
  pose proof (parseArEntry_Size_bound order line entry Hp) as Hsz.
  pose proof (rem64_2_range (Size entry)) as Hrem.
  cbn [offset Size Data].
  change (10 ^ 10) with 10000000000 in *.
  assert (Hr : minInt64 = -9223372036854775808
               /\ maxInt64 = 9223372036854775807) by (split; reflexivity).
  destruct Hr as [Hmin Hmax].
  rewrite (wrap64_in_range (offset d + 60)) by lia.
  rewrite (wrap64_in_range (offset d + 60 + Size entry + rem64 (Size entry) 2))
    by lia.
  split; [reflexivity|]. split; [|lia].
  eexists. split; [reflexivity|]. split; [reflexivity|].
  split; [reflexivity|]. split.
  - intros Hnn. apply NewSectionReader_nonneg; lia.
  - intros Hneg. apply NewSectionReader_negative; lia.
Qed.

Lemma Next_no_overflow_witness :
  Next entryFields (cursor_at (magic ++ line_size_minus_100) 8)
  = (cursor_at (magic ++ line_size_minus_100) (-32),
     OK {| Name := str "foo"; Timestamp := 1342943816; OwnerID := 501;
           GroupID := 20; FileMode := str "100644"; Size := -100;
           Data := Some (io.NewSectionReader
                           (bytes_.NewReader (magic ++ line_size_minus_100))
                           68 (-100)) |})
  /\ -32 = 8 + 60 + -100 + rem64 (-100) 2.
Proof.
  split; [vm_compute; reflexivity|].
  refine (proj1 (Next_no_overflow entryFields
                   (cursor_at (magic ++ line_size_minus_100) 8)
                   (cursor_at (magic ++ line_size_minus_100) (-32))
                   {| Name := str "foo"; Timestamp := 1342943816;
                      OwnerID := 501; GroupID := 20;
                      FileMode := str "100644"; Size := -100;
                      Data := Some (io.NewSectionReader
                                      (bytes_.NewReader
                                         (magic ++ line_size_minus_100))
                                      68 (-100)) |} _ _)).
  - vm_compute; reflexivity.
  - vm_compute. split; discriminate.
Defined.

(** ** Opening and reading the first member *)

(** X9.  The first successful call of [Next] on a cursor that [LoadAr]
    returned for a byte source reads the header at offset 8 and moves the
    cursor to [68 + size + size % 2] on the same source, with no overflow
    possible.  The member it returns has its data range on that source,
    built by [NewSectionReader(in, 68, size)]: it starts at offset 68; for
    a size that is not negative it ends at [68 + size] and has length
    [size]; for a negative size it runs to [maxint64] and has length
    [maxint64 - 68]. *)
Theorem LoadAr_then_Next (order : list entryField) (r : io.ReaderAt)
    (d d' : Ar) (e : ArEntry) :
  LoadAr r = OK d ->
  Next order d = (d', OK e) ->
  (exists line, io.ReadAt r 60 8 = (line, None) /\ length line = 60%nat)
  /\ Data e = Some (io.NewSectionReader r 68 (Size e))
  /\ (exists sr,
        Data e = Some sr /\ io.sr_r sr = r /\ io.sr_base sr = 68
        /\ (0 <= Size e ->
            io.sr_limit sr = 68 + Size e /\ io.Size sr = Size e)
        /\ (Size e < 0 ->
            io.sr_limit sr = maxInt64 /\ io.Size sr = maxInt64 - 68))
  /\ d' = {| in_ := r; offset := 68 + Size e + rem64 (Size e) 2 |}.
Proof.
  intros Hload H. apply LoadAr_OK_inv in Hload. subst d.
  apply Next_OK_inv in H as (line & entry & Hread & Hlen & Hp & -> & ->).
  cbn [in_ offset] in *.
  pose proof (parseArEntry_Size_bound order line entry Hp) as Hsz.
  pose proof (rem64_2_range (Size entry)) as Hrem.
  change (10 ^ 10) with 10000000000 in Hsz.
  assert (Hr : minInt64 = -9223372036854775808
               /\ maxInt64 = 9223372036854775807) by (split; reflexivity).
  destruct Hr as [Hmin Hmax].
  split; [exists line; auto|]. cbn [Size Data].
  rewrite (wrap64_in_range (8 + 60)) by (vm_compute; split; discriminate).
  rewrite (wrap64_in_range (8 + 60 + Size entry + rem64 (Size entry) 2))
    by lia.
  change (8 + 60) with 68.
  split; [reflexivity|]. split; [|f_equal; lia].
  eexists. split; [reflexivity|]. split; [reflexivity|].
  split; [reflexivity|]. split.
  - intros Hnn. apply NewSectionReader_nonneg; lia.
  - intros Hneg.
    pose proof (NewSectionReader_negative r 68 (Size entry)) as Hlim.
    assert (Hl : io.sr_limit (io.NewSectionReader r 68 (Size entry))
                 = maxInt64) by (apply Hlim; lia).
    split; [exact Hl|].
    unfold io.Size. rewrite Hl.
    change (io.sr_base (io.NewSectionReader r 68 (Size entry))) with 68.
    apply wrap64_in_range. vm_compute. split; discriminate.
Qed.

Lemma LoadAr_then_Next_witness :
  LoadAr (bytes_.NewReader (archive_foo_baz x0a []))
  = OK (cursor_at (archive_foo_baz x0a []) 8)
  /\ Next entryFields (cursor_at (archive_foo_baz x0a []) 8)
     = (cursor_at (archive_foo_baz x0a []) 72,
        OK (member_foo (archive_foo_baz x0a [])))
  /\ Data (member_foo (archive_foo_baz x0a []))
     = Some (io.NewSectionReader (bytes_.NewReader (archive_foo_baz x0a []))
               68 (Size (member_foo (archive_foo_baz x0a [])))).
Proof.
  split; [reflexivity|]. split; [vm_compute; reflexivity|].
  refine (proj1 (proj2 (LoadAr_then_Next entryFields
            (bytes_.NewReader (archive_foo_baz x0a []))
            (cursor_at (archive_foo_baz x0a []) 8)
            (cursor_at (archive_foo_baz x0a []) 72)
            (member_foo (archive_foo_baz x0a [])) _ _))).
  - reflexivity.
  - vm_compute; reflexivity.
Defined.

(** ** The offset along a run, without overflow *)

Lemma Advances_offsets_exact (d : Ar) (tr : list (ArEntry * Ar)) :
  Advances d tr ->
  forall k,
    0 <= k -> k + Z.of_nat (length tr) <= 900000000 ->
    8 - k * 10000000061 <= offset d <= 8 + k * 10000000061 ->
    offset (final_cursor d tr) = offset d + total_span (map fst tr).
Proof.
  induction 1 as [d|order d e d1 tr Hord Hnext Hadv IH]; intros k Hk Hn Hoff.
  - simpl. lia.
  - cbn [final_cursor map fst total_span fold_right length] in *.
    rewrite Nat2Z.inj_succ in Hn.
    apply Next_OK_inv in Hnext as (line & entry & _ & _ & Hp & He & Hd1).
    pose proof (parseArEntry_Size_bound order line entry Hp) as Hsz.
    change (10 ^ 10) with 10000000000 in Hsz.
    pose proof (rem64_2_range (Size entry)) as Hrem.
    assert (Hsize : Size e = Size entry) by (rewrite He; reflexivity).
    assert (Hoff1 : offset d1 = offset d + span e).
    { rewrite Hd1. cbn [offset]. unfold span. rewrite Hsize.
      rewrite wrap64_in_range; [ring|].
      unfold minInt64, maxInt64.
      change (2 ^ 63) with 9223372036854775808. lia. }
    rewrite (IH (k + 1)).
    + rewrite Hoff1. fold (total_span (map fst tr)). ring.
    + lia.
    + lia.
    + rewrite Hoff1. unfold span. rewrite Hsize. lia.
Qed.

(** X11.  On a cursor that [LoadAr] returned, a run of up to 900 000 000
    successful calls of [Next] never overflows the offset: the offset at
    the end of the run is exactly 8 plus, for each member returned, 60
    plus its size plus [size % 2]. *)
Theorem LoadAr_Advances_offset (r : io.ReaderAt) (d : Ar)
    (tr : list (ArEntry * Ar)) :
  LoadAr r = OK d -> Advances d tr ->
  Z.of_nat (length tr) <= 900000000 ->
  offset (final_cursor d tr) = 8 + total_span (map fst tr).
Proof.
  intros Hload Hadv Hlen. apply LoadAr_OK_inv in Hload. subst d.
  rewrite (Advances_offsets_exact _ _ Hadv 0); cbn [offset]; lia.
Qed.

Lemma LoadAr_Advances_offset_witness :
  LoadAr (bytes_.NewReader (archive_foo_baz x0a []))
  = OK (cursor_at (archive_foo_baz x0a []) 8)
  /\ 132 = 8 + ((60 + 3 + 1) + ((60 + 0 + 0) + 0)).
Proof.
  split; [reflexivity|].
  assert (Hrun :
    Advances (cursor_at (archive_foo_baz x0a []) 8)
      [(member_foo (archive_foo_baz x0a []),
        cursor_at (archive_foo_baz x0a []) 72);
       (member_baz (archive_foo_baz x0a []),
        cursor_at (archive_foo_baz x0a []) 132)]).
  { apply (Advances_cons entryFields);
      [apply Permutation_refl | vm_compute; reflexivity |].
    apply (Advances_cons entryFields);
      [apply Permutation_refl | vm_compute; reflexivity |].
    apply Advances_nil. }
  refine (LoadAr_Advances_offset (bytes_.NewReader (archive_foo_baz x0a []))
            (cursor_at (archive_foo_baz x0a []) 8) _ eq_refl Hrun _).
  simpl. lia.
Defined.

(** ** The text fields are copied, not rewritten *)

Lemma infix_refl (s : bytes) : infix s s.
Proof. exists [], []. rewrite app_nil_r. reflexivity. Qed.

Lemma infix_trans (a b c : bytes) : infix a b -> infix b c -> infix a c.
Proof.
  intros (p1 & q1 & ->) (p2 & q2 & ->).
  exists (p2 ++ p1), (q1 ++ q2). rewrite !app_assoc. reflexivity.
Qed.

Lemma infix_firstn (n : nat) (s : bytes) : infix (firstn n s) s.
Proof.
  exists [], (skipn n s). simpl. apply eq_sym, firstn_skipn.
Qed.

Lemma infix_skipn (n : nat) (s : bytes) : infix (skipn n s) s.
Proof.
  exists (firstn n s), []. rewrite app_nil_r. apply eq_sym, firstn_skipn.
Qed.

Lemma infix_slice (s : bytes) (lo hi : nat) : infix (slice s lo hi) s.
Proof.
  unfold slice. eapply infix_trans; [apply infix_firstn | apply infix_skipn].
Qed.

Lemma infix_cons (c : byte) (a s : bytes) : infix a s -> infix a (c :: s).
Proof. intros (p & q & ->). exists (c :: p), q. reflexivity. Qed.

Lemma infix_snoc (c : byte) (a s : bytes) : infix a s -> infix a (s ++ [c]).
Proof.
  intros (p & q & ->). exists p, (q ++ [c]). rewrite !app_assoc. reflexivity.
Qed.

Lemma trimLeftSpace_infix (fuel : nat) :
  forall s, infix (strings.trimLeftSpace fuel s) s.
Proof.
  induction fuel as [|k IH]; intros s; simpl; [apply infix_refl|].
  destruct s as [|c s']; [apply infix_refl|].
  destruct (utf8.DecodeRuneInString (c :: s')) as [r size].
  destruct (unicode.IsSpace r); [|apply infix_refl].
  eapply infix_trans; [apply IH | apply infix_skipn].
Qed.

Lemma TrimRightFunc_infix (s : bytes) :
  infix (strings.TrimRightFunc_IsSpace s) s.
Proof. unfold strings.TrimRightFunc_IsSpace. apply infix_slice. Qed.

Lemma trimSpaceStop_infix (r : bytes) :
  infix (strings.trimSpaceStop r) (rev r).
Proof.
  induction r as [|c r' IH]; [apply infix_refl|].
  cbn [strings.trimSpaceStop].
  destruct (utf8.RuneSelf <=? byteZ c); [apply TrimRightFunc_infix|].
  destruct (strings.asciiSpace c); [|apply infix_refl].
  cbn [rev]. apply infix_snoc, IH.
Qed.

(** [strings.TrimSpace] returns a run of consecutive bytes of its
    argument. *)
Lemma TrimSpace_infix (s : bytes) : infix (strings.TrimSpace s) s.
Proof.
  induction s as [|c s' IH]; [apply infix_refl|].
  cbn [strings.TrimSpace].
  destruct (utf8.RuneSelf <=? byteZ c).
  - unfold strings.TrimFunc_IsSpace, strings.TrimLeftFunc_IsSpace.
    eapply infix_trans; [apply TrimRightFunc_infix | apply trimLeftSpace_infix].
  - destruct (strings.asciiSpace c).
    + apply infix_cons, IH.
    + rewrite <- (rev_involutive (c :: s')) at 2. apply trimSpaceStop_infix.
Qed.

Lemma TrimSuffix_infix (s suffix : bytes) :
  infix (strings.TrimSuffix s suffix) s.
Proof.
  unfold strings.TrimSuffix. destruct (strings.HasSuffix s suffix).
  - apply infix_firstn.
  - apply infix_refl.
Qed.

(** X12.  The decoder copies its two text fields and rewrites nothing: in
    an entry that [parseArEntry] returns, the name is a run of consecutive
    bytes of the name field (bytes 0 to 15 of the line) and the file mode
    is a run of consecutive bytes of the mode field (bytes 40 to 47); the
    file mode is the mode field after [strings.TrimSpace], on ASCII bytes
    the field without its leading and trailing whitespace, and is not
    checked to be octal. *)
Theorem parseArEntry_text_fields (order : list entryField) (line : bytes)
    (e : ArEntry) :
  parseArEntry order line = OK e ->
  infix (Name e) (slice line 0 16)
  /\ infix (FileMode e) (slice line 40 48)
  /\ FileMode e = strings.TrimSpace (slice line 40 48)
  /\ (Forall is_ascii (slice line 40 48) ->
      FileMode e = trim_whitespace (slice line 40 48)).
Proof.
  intros H. apply parseArEntry_OK_inv in H as (_ & _ & H).
  apply parseArEntry_range_OK in H as (Hn & Hm & _).
  rewrite Hn, Hm. cbn [Name FileMode initial_entry].
  split; [|split; [|split]].
  - eapply infix_trans; [apply TrimSuffix_infix | apply TrimSpace_infix].
  - apply TrimSpace_infix.
  - reflexivity.
  - intros Hascii. apply TrimSpace_ascii, Hascii.
Qed.

Lemma parseArEntry_text_fields_witness :
  parseArEntry entryFields
    (header_line " a b/" "1342943816" "501" "20" " 9z" "3" x60 x0a)
  = OK {| Name := str "a b"; Timestamp := 1342943816; OwnerID := 501;
          GroupID := 20; FileMode := str "9z"; Size := 3; Data := None |}
  /\ str "9z"
     = strings.TrimSpace
         (slice (header_line " a b/" "1342943816" "501" "20" " 9z" "3"
                   x60 x0a) 40 48).
Proof.
  split; [vm_compute; reflexivity|].
  refine (proj1 (proj2 (proj2 (parseArEntry_text_fields entryFields
            (header_line " a b/" "1342943816" "501" "20" " 9z" "3" x60 x0a)
            {| Name := str "a b"; Timestamp := 1342943816; OwnerID := 501;
               GroupID := 20; FileMode := str "9z"; Size := 3;
               Data := None |} _)))).
  vm_compute; reflexivity.
Defined.

(** ** The offset and the data range after a successful call (C5) *)

(** C5, amended: as long as the [int64] arithmetic does not overflow, a
    successful call moves the offset by [60 + size + size % 2], where [%]
    is the truncated remainder of Go, and the data range of the returned
    member, built by [NewSectionReader], is on the byte source of the
    cursor and starts at the old offset plus 60; when the size is not
    negative the range ends [size] bytes later and has length [size].  For
    a non-negative odd size the cursor skips one pad byte, for an even
    size none. *)
Theorem Next_advances_by_span (order : list entryField) (d d' : Ar)
    (e : ArEntry) :
  Next order d = (d', OK e) ->
  minInt64 <= offset d -> offset d + 60 <= maxInt64 ->
  minInt64 <= offset d + span e <= maxInt64 ->
  offset d' = offset d + 60 + Size e + rem64 (Size e) 2
  /\ Data e = Some (io.NewSectionReader (in_ d) (offset d + 60) (Size e))
  /\ (0 <= Size e ->
      exists sr,
        Data e = Some sr /\ io.sr_r sr = in_ d
        /\ io.sr_base sr = offset d + 60
        /\ io.sr_limit sr = offset d + 60 + Size e
        /\ io.Size sr = Size e)
  /\ (0 <= Size e -> Z.odd (Size e) = true ->
      offset d' = offset d + 60 + Size e + 1)
  /\ (Z.even (Size e) = true -> offset d' = offset d + 60 + Size e).
Proof.
  intros H Hlo Hhi Hspan.
  apply Next_OK_inv in H as (line & entry & _ & _ & Hp & -> & ->).
  pose proof (parseArEntry_Size_bound order line entry Hp) as Hsz.
  change (10 ^ 10) with 10000000000 in Hsz.
  unfold span in Hspan. cbn [Size offset Data] in *.
  rewrite (wrap64_in_range (offset d + 60)) by lia.
  rewrite (wrap64_in_range (offset d + 60 + Size entry + rem64 (Size entry) 2))
    by lia.
  split; [reflexivity|]. split; [reflexivity|]. split; [|split].
  - intros Hnn. eexists. split; [reflexivity|]. split; [reflexivity|].
    split; [reflexivity|].
    rewrite (rem64_2_nonneg _ Hnn) in Hspan.
    assert (Hmax : maxInt64 = 9223372036854775807) by reflexivity.
    apply NewSectionReader_nonneg; destruct (Z.odd (Size entry)); lia.
  - intros Hnn Hodd. rewrite rem64_2_nonneg, Hodd by assumption. reflexivity.
  - intros Heven. apply Z.even_spec in Heven as [k Hk].
    unfold rem64. rewrite Hk, Z.mul_comm, Z.rem_mul by lia. lia.
Qed.

Lemma Next_advances_by_span_witness :
  Next entryFields (cursor_at (archive_foo_baz x0a []) 8)
  = (cursor_at (archive_foo_baz x0a []) 72,
     OK (member_foo (archive_foo_baz x0a [])))
  /\ 72 = 8 + 60 + 3 + rem64 3 2.
Proof.
  split; [vm_compute; reflexivity|].
  refine (proj1 (Next_advances_by_span entryFields
                   (cursor_at (archive_foo_baz x0a []) 8)
                   (cursor_at (archive_foo_baz x0a []) 72)
                   (member_foo (archive_foo_baz x0a [])) _ _ _ _)).
  - vm_compute; reflexivity.
  - vm_compute; discriminate.
  - vm_compute; discriminate.
  - vm_compute. split; discriminate.
Defined.
